(** * A caching DNS-over-TLS forwarder: the cache, the resolver and the clock

    A shallow embedding of the forwarding and caching engine.  Go values
    become Rocq values as follows.

    - A [*dns.Msg] is the record [Msg]; [Copy] is a deep copy, so a copy
      shares nothing with the original and is the same record value.
    - [time.Time] is an integer number of nanoseconds counted from Go's zero
      instant, [time.Duration] an integer number of nanoseconds.
    - Reading the system clock is an input of the operation that reads it.
    - A run-time panic (an index out of range) is the [Panic] result. *)

From Stdlib Require Import ZArith List Ascii String Bool Lia.
Import ListNotations.
Open Scope Z_scope.

(** ** Results of operations that may panic *)

Inductive result (A : Type) : Type :=
| Ok (a : A)
| Panic (why : string).
Arguments Ok {A} a.
Arguments Panic {A} why.

Definition bind {A B : Type} (r : result A) (k : A -> result B) : result B :=
  match r with
  | Ok a => k a
  | Panic why => Panic why
  end.

Notation "x <- r ;; k" := (bind r (fun x => k))
  (at level 61, r at next level, right associativity).

Definition index_out_of_range : string := "index out of range".

(** ** Time *)

Definition Time : Type := Z.
Definition Duration : Type := Z.

Definition Second : Duration := 1000000000.
Definition Millisecond : Duration := 1000000.
Definition Hour : Duration := 3600 * Second.

(** [t.Add(d)], [t.Before(u)] and [time.Since(t)] read at the instant [now]. *)
Definition Add (t : Time) (d : Duration) : Time := t + d.
Definition Before (t u : Time) : bool := t <? u.
Definition Since (now t : Time) : Duration := now - t.

(** [uint32(d.Seconds() * -1)].  [Seconds] is the floating-point number of
    seconds of [d]; for the durations the cache sees (a day at most) float64
    holds it with an error far below a nanosecond, so the conversion, which
    drops the fraction, yields the whole seconds of [-d].  Go leaves the
    conversion of a negative number below -1 to the platform; the model wraps
    it to 32 bits as amd64 does. *)
Definition uint32 (z : Z) : Z := z mod 2 ^ 32.
Definition neg_seconds_uint32 (d : Duration) : Z := uint32 (Z.quot (- d) Second).

(** ** DNS messages: the fields of [dns.Msg] the forwarder reads or writes *)

Module Dns.

Record Question : Type := mkQuestion {
  Name : string;
  Qtype : Z;
  Qclass : Z
}.

(** A resource record: its header's name, type and TTL (a uint32, seconds),
    and its data. *)
Record RR : Type := mkRR {
  Hdr_Name : string;
  Rrtype : Z;
  Ttl : Z;
  Rdata : string
}.

(** The field [Question] of [dns.Msg] is [Questions] here, the name
    [Question] being that of the record above. *)
Record Msg : Type := mkMsg {
  Id : Z;
  Truncated : bool;
  Compress : bool;
  Questions : list Question;
  Answer : list RR
}.

Definition Copy (m : Msg) : Msg := m.

Definition set_Id (m : Msg) (id : Z) : Msg :=
  mkMsg id (Truncated m) (Compress m) (Questions m) (Answer m).

Definition set_Truncated (m : Msg) (b : bool) : Msg :=
  mkMsg (Id m) b (Compress m) (Questions m) (Answer m).

Definition set_Compress (m : Msg) (b : bool) : Msg :=
  mkMsg (Id m) (Truncated m) b (Questions m) (Answer m).

Definition set_Answer (m : Msg) (rs : list RR) : Msg :=
  mkMsg (Id m) (Truncated m) (Compress m) (Questions m) rs.

Definition set_Ttl (a : RR) (ttl : Z) : RR :=
  mkRR (Hdr_Name a) (Rrtype a) ttl (Rdata a).

(** The least TTL of a non-empty list of answer records (0 for the empty
    list, which [Put] never stores). *)
Fixpoint min_ttl (rs : list RR) : Z :=
  match rs with
  | [] => 0
  | [a] => Ttl a
  | a :: rest => Z.min (Ttl a) (min_ttl rest)
  end.

End Dns.

Import Dns.

Module DnsMore.

(** What a record is apart from its TTL. *)
Definition record_data (a : RR) : string * Z * string :=
  (Hdr_Name a, Rrtype a, Rdata a).

End DnsMore.

(** ** The response cache of the unnamed source file (package [cache]) *)

Module DnsCache.

Definition maxTTL : Duration := 24 * Hour.

Record CacheValue : Type := mkCacheValue {
  m : Msg;
  exp : Time
}.

(** The replacement cache [arc.ARC] comes from an external package: the
    response cache is written against its two operations.  [arc_Get] moves
    the entry inside the replacement lists, hence the new state. *)
Record ArcImpl : Type := mkArcImpl {
  ARC : Type;
  arc_Get : ARC -> string -> ARC * option CacheValue;
  arc_Put : ARC -> string -> CacheValue -> ARC
}.

(** What the response cache relies on: an entry just put is found. *)
Definition ArcPutGet (A : ArcImpl) : Prop :=
  forall (a : ARC A) (k : string) (v : CacheValue),
    snd (arc_Get A (arc_Put A a k v) k) = Some v.

Section Cache.

(** [Question.String] of the DNS library, the fingerprint of a question. *)
Variable question_String : Question -> string.
Variable A : ArcImpl.

Record Cache : Type := mkCache { c : ARC A }.

(** [key]: [k.Question[0].String()]. *)
Definition key (k : Msg) : result string :=
  match Questions k with
  | [] => Panic index_out_of_range
  | q0 :: _ => Ok (question_String q0)
  end.

(** The stale branch: every answer gets the TTL 60. *)
Definition stale_answers (rs : list RR) : list RR :=
  map (fun a => set_Ttl a 60) rs.

(** The fresh branch: answer number [i] gets the seconds left at the clock
    reading [since i] ([time.Since] runs once per answer). *)
Fixpoint fresh_answers (e : Time) (since : nat -> Time) (i : nat) (rs : list RR)
  : list RR :=
  match rs with
  | [] => []
  | a :: rest =>
      set_Ttl a (neg_seconds_uint32 (Since (since i) e))
        :: fresh_answers e since (S i) rest
  end.

(** [Cache.Get].  [now] is the clock reading of the expiry test. *)
Definition Get (ca : Cache) (mk : Msg) (now : Time) (since : nat -> Time)
  : result (Cache * option Msg * bool) :=
  k <- key mk ;;
  let (a', r) := arc_Get A (c ca) k in
  match r with
  | None => Ok (mkCache a', None, false)
  | Some v =>
      let mv := set_Id (Copy (m v)) (Id mk) in
      if Before (exp v) now
      then Ok (mkCache a', Some (set_Answer mv (stale_answers (Answer mv))), false)
      else Ok (mkCache a',
               Some (set_Answer mv (fresh_answers (exp v) since 0 (Answer mv))),
               true)
  end.

(** The body of the loop of [Cache.Put] over the answers, and the loop. *)
Definition earlier_expiration (now : Time) (minExpirationTime : Time) (a : RR)
  : Time :=
  let e := Add now (Ttl a * Second) in
  if Before e minExpirationTime then e else minExpirationTime.

Definition min_expiration (now : Time) (rs : list RR) : Time :=
  fold_left (earlier_expiration now) rs (Add now maxTTL).

Definition canonical (v : Msg) : Msg :=
  set_Compress (set_Truncated (Copy v) false) true.

(** [Cache.Put].  [now] is its one clock reading. *)
Definition Put (ca : Cache) (k v : Msg) (now : Time) : result Cache :=
  match Answer v with
  | [] => _ <- key k ;; Ok ca
  | _ :: _ =>
      let minExpirationTime := min_expiration now (Answer v) in
      let cm := canonical v in
      kk <- key k ;;
      Ok (mkCache (arc_Put A (c ca) kk (mkCacheValue cm minExpirationTime)))
  end.

End Cache.

Arguments key question_String k : assert.
Arguments Get question_String {A} ca mk now since.
Arguments Put question_String {A} ca k v now.
Arguments mkCache {A} c.
Arguments c {A} _.

End DnsCache.

(** ** The replacement cache of [proxy/internal/specialized] *)

Module Specialized.

Section Cache.

(** What the cache stores; a [Value] is an interface value, [None] its nil. *)
Variable V : Type.
Definition Value : Type := option V.

(** The items of a store, with the fields [Cache.Put] reads: the key, the
    value, the access count [a] and the time of the last access [t].  The
    zero item is what [put] returns when nothing was pushed out. *)
Record item : Type := mkItem {
  key : string;
  v : Value;
  a : Z;
  t : Z
}.

Definition zero_item : item := mkItem EmptyString None 0 0.

Inductive sortType : Type := byTime | byAccesses.

(** The store of the package (its priority queue with a lookup map) is not
    among the sources at hand; the cache is written against its operations,
    each returning the store it leaves behind. *)
Record StoreImpl : Type := mkStoreImpl {
  store : Type;
  newStore : Z -> sortType -> store;
  get : store -> Z -> string -> store * (Value * bool);
  update : store -> Z -> string -> Value -> store * bool;
  put : store -> Z -> string -> Value -> Z -> store * item;
  peek : store -> item;
  Len : store -> Z;
  cap : store -> Z;
  reset : store -> Z -> store * Z
}.

(** The contract of a store as far as sizes go: a store is born empty with
    the capacity asked for, only [put] changes its length, and a [put] into a
    store with room for at least one item stays within the capacity. *)
Record StoreLaws (S : StoreImpl) : Prop := mkStoreLaws {
  newStore_Len : forall n s, Len S (newStore S n s) = 0;
  newStore_cap : forall n s, 0 <= n -> cap S (newStore S n s) = n;
  get_Len : forall s now k, Len S (fst (get S s now k)) = Len S s;
  get_cap : forall s now k, cap S (fst (get S s now k)) = cap S s;
  update_Len : forall s now k x, Len S (fst (update S s now k x)) = Len S s;
  update_cap : forall s now k x, cap S (fst (update S s now k x)) = cap S s;
  put_Len : forall s now k x n,
    0 < cap S s -> Len S s <= cap S s ->
    Len S (fst (put S s now k x n)) <= cap S s;
  put_cap : forall s now k x n, cap S (fst (put S s now k x n)) = cap S s;
  reset_Len : forall s n, Len S (fst (reset S s n)) = Len S s;
  reset_cap : forall s n, cap S (fst (reset S s n)) = cap S s
}.

Variable S : StoreImpl.

(** [timeNow] records whether [SetTimer] installed a timer; what the timer
    reads is an input of the operation that calls it.  The field [t] of the
    Go struct is [ct] here, [t] being a field of [item]. *)
Record Cache : Type := mkCache {
  lru : store S;
  mfa : store S;
  ct : Z;
  timeNow : bool;
  capacity : Z
}.

(** [int] and [uint] of a 64-bit target. *)
Definition uint_bits : Z := 64.
Definition uint_of_int (z : Z) : Z := z mod 2 ^ uint_bits.
Definition maxsize : Z := (2 ^ uint_bits - 1) / 2.

Inductive NewCacheResult : Type :=
| Disabled
| Failed (err : string)
| Built (c : Cache).

(** [NewCache]: [(nil, nil)] is [Disabled]. *)
Definition NewCache (size : Z) : NewCacheResult :=
  if size <=? 0 then Disabled
  else if size <? 2 then Failed "cache size < 2 not supported"
  else if uint_of_int size >? maxsize then Failed "cache size above supported limit"
  else Built (mkCache (newStore S (Z.quot size 2) byTime)
                      (newStore S (Z.quot size 2 + Z.rem size 2) byAccesses)
                      0 false size).

Definition SetTimer (c : Cache) : Cache :=
  mkCache (lru c) (mfa c) (ct c) true (capacity c).

(** [Cache.now]; [timer] is what the installed timer would read. *)
Definition now (c : Cache) (timer : Z) : Cache * Z :=
  if timeNow c then (c, timer)
  else
    let t1 := uint_of_int (ct c + 1) in
    if t1 =? 0 then
      let (lru', t2) := reset S (lru c) t1 in
      let (mfa', t3) := reset S (mfa c) t2 in
      (mkCache lru' mfa' t3 (timeNow c) (capacity c), t3)
    else (mkCache (lru c) (mfa c) t1 (timeNow c) (capacity c), t1).

Definition with_mfa (c : Cache) (s : store S) : Cache :=
  mkCache (lru c) s (ct c) (timeNow c) (capacity c).

Definition with_lru (c : Cache) (s : store S) : Cache :=
  mkCache s (mfa c) (ct c) (timeNow c) (capacity c).

Definition is_nil (x : Value) : bool :=
  match x with None => true | Some _ => false end.

(** [Cache.Get] on a cache that is not nil. *)
Definition Get (c : Cache) (k : string) (timer : Z) : Cache * (Value * bool) :=
  let (c, n) := now c timer in
  let (mfa', r) := get S (mfa c) n k in
  let c := with_mfa c mfa' in
  if snd r then (c, (fst r, true))
  else
    let (lru', r) := get S (lru c) n k in
    let c := with_lru c lru' in
    if snd r then (c, (fst r, true))
    else (c, (None, false)).

(** [Cache.Put] on a cache that is not nil. *)
Definition Put (c : Cache) (k : string) (x : Value) (timer : Z) : Cache :=
  let (c, n) := now c timer in
  let (mfa1, ok) := update S (mfa c) n k x in
  let c := with_mfa c mfa1 in
  if ok then c
  else
    let (lru1, ok) := update S (lru c) n k x in
    let c := with_lru c lru1 in
    if ok then c
    else
      let (lru2, lruovf) := put S (lru c) n k x 1 in
      let c := with_lru c lru2 in
      if is_nil (v lruovf) then c
      else if Len S (mfa c) <? cap S (mfa c) then
        with_mfa c (fst (put S (mfa c) n (key lruovf) (v lruovf) (a lruovf)))
      else if (a (peek S (mfa c)) <? a lruovf)
              || ((a (peek S (mfa c)) =? a lruovf)
                  && (t (peek S (mfa c)) <? t lruovf)) then c
      else
        let (mfa2, mfaovf) := put S (mfa c) n (key lruovf) (v lruovf) (a lruovf) in
        let c := with_mfa c mfa2 in
        if (Len S (lru c) >? 0) && (a (peek S (lru c)) <? a mfaovf)
        then with_lru c (fst (put S (lru c) n (key mfaovf) (v mfaovf) 1))
        else c.

(** [Cache.Len] and [Cache.Cap] ([Len] and [cap] name the store's). *)
Definition CacheLen (c : Cache) : Z := Len S (lru c) + Len S (mfa c).
Definition CacheCap (c : Cache) : Z := cap S (lru c) + cap S (mfa c).

(** The methods on a pointer that may be nil: [Get] and [Put] test for it,
    [Len] and [Cap] dereference it. *)
Definition Get_ptr (c : option Cache) (k : string) (timer : Z)
  : option Cache * (Value * bool) :=
  match c with
  | None => (None, (None, false))
  | Some c => let (c', r) := Get c k timer in (Some c', r)
  end.

Definition Put_ptr (c : option Cache) (k : string) (x : Value) (timer : Z)
  : option Cache :=
  match c with
  | None => None
  | Some c => Some (Put c k x timer)
  end.

Definition Len_ptr (c : option Cache) : result Z :=
  match c with
  | None => Panic "nil pointer dereference"
  | Some c => Ok (CacheLen c)
  end.

Definition Cap_ptr (c : option Cache) : result Z :=
  match c with
  | None => Panic "nil pointer dereference"
  | Some c => Ok (CacheCap c)
  end.

(** Both stores have room for an item and hold no more than their
    capacities [l0] and [m0]. *)
Definition within (l0 m0 : Z) (c : Cache) : Prop :=
  cap S (lru c) = l0 /\ cap S (mfa c) = m0
  /\ 0 < l0 /\ 0 < m0
  /\ Len S (lru c) <= l0 /\ Len S (mfa c) <= m0.

(** Sequences of operations and the states they go through. *)
Inductive op : Type :=
| OpPut (k : string) (x : Value) (timer : Z)
| OpGet (k : string) (timer : Z).

Definition step (c : Cache) (o : op) : Cache :=
  match o with
  | OpPut k x timer => Put c k x timer
  | OpGet k timer => fst (Get c k timer)
  end.

Fixpoint states (c : Cache) (ops : list op) : list Cache :=
  match ops with
  | [] => []
  | o :: rest => let c' := step c o in c' :: states c' rest
  end.

End Cache.

Arguments zero_item {V}.
Arguments mkItem {V} key v a t.

End Specialized.

(** ** The server of [proxy/server.go] *)

Module Proxy.

Definition defaultCacheSize : Z := 65536.
Definition connectionTimeout : Duration := 10 * Second.
Definition connectionsPerUpstream : Z := 5.
Definition refreshQueueSize : nat := 2048.
Definition resolutionMilliseconds : Z := 500.

(** *** The connector *)

(** [strings.Split(s, sep)] for a separator of one character. *)
Fixpoint Split (sep : Ascii.ascii) (s : string) : list string :=
  match s with
  | EmptyString => [EmptyString]
  | String ch rest =>
      if Ascii.eqb ch sep then EmptyString :: Split sep rest
      else match Split sep rest with
           | [] => [String ch EmptyString]
           | p :: ps => String ch p :: ps
           end
  end.

Definition at_sign : Ascii.ascii := "@"%char.

Fixpoint contains (ch : Ascii.ascii) (s : string) : bool :=
  match s with
  | EmptyString => false
  | String x rest => Ascii.eqb x ch || contains ch rest
  end.

Definition VersionTLS12 : Z := 771.

Record tlsConfig : Type := mkTlsConfig {
  MinVersion : Z;
  ServerName : string
}.

Inductive connected (Conn : Type) : Type :=
| Connected (conn : Conn)
| Failure (err : string).
Arguments Connected {Conn} conn.
Arguments Failure {Conn} err.

Section Connector.

Variable Conn : Type.

(** [net.SplitHostPort] of the standard library and the server's [dial]
    field: a host and a port or an error, a connection or an error. *)
Variable SplitHostPort : string -> (string * string) + string.
Variable dial : string -> tlsConfig -> Conn + string.

(** The function [Server.connector] returns, run once. *)
Definition connector (upstreamServer : string) : connected Conn :=
  let tlsConf := mkTlsConfig VersionTLS12 EmptyString in
  let serverComponents := Split at_sign upstreamServer in
  let parsed :=
    match serverComponents with
    | [c0; c1] =>
        match SplitHostPort c0 with
        | inr err => inr err
        | inl (servername, port) =>
            inl (mkTlsConfig (MinVersion tlsConf) servername,
                 (c1 ++ ":" ++ port)%string)
        end
    | _ => inl (tlsConf, upstreamServer)
    end in
  match parsed with
  | inr err => Failure err
  | inl (tlsConf, dialableAddress) =>
      match dial dialableAddress tlsConf with
      | inr err => Failure err
      | inl conn => Connected conn
      end
  end.

End Connector.

(** *** The coarse clock *)

Record Clock : Type := mkClock {
  currentTime : Time;
  startTime : Time
}.

(** The zero [time.Time], the value of a field never assigned. *)
Definition zeroTime : Time := 0.

(** [NewServer] assigns neither time field. *)
Definition NewServer_clock : Clock := mkClock zeroTime zeroTime.

(** What happens to the clock fields: [Run] records the start time read
    from the system clock, and each tick of [timer]'s ticker stores the
    tick's time. *)
Inductive clock_event : Type :=
| RunStarts (sys : Time)
| Tick (tm : Time).

Definition clock_step (s : Clock) (e : clock_event) : Clock :=
  match e with
  | RunStarts sys => mkClock (currentTime s) sys
  | Tick tm => mkClock tm (startTime s)
  end.

Definition clock_run (s : Clock) (es : list clock_event) : Clock :=
  fold_left clock_step es s.

Definition is_tick (e : clock_event) : bool :=
  match e with Tick _ => true | RunStarts _ => false end.

(** [Server.now]. *)
Definition now (s : Clock) : Time := currentTime s.

(** *** One exchange with an upstream *)

Inductive error : Type :=
| errPool
| errWrite
| errRead
| errNilResponse.

(** What the connection does during one exchange. *)
Record exchange_io : Type := mkExchangeIO {
  pool_get_fails : bool;
  write_fails : bool;
  read_result : option Msg * bool
}.

Inductive conn_fate : Type := NoConn | Closed | Returned.

(** [exchangeMessages]: the response, the error, and what became of the
    connection. *)
Definition exchangeMessages (io : exchange_io) : option Msg * option error * conn_fate :=
  if pool_get_fails io then (None, Some errPool, NoConn)
  else if write_fails io then (None, Some errWrite, Closed)
  else
    match read_result io with
    | (_, true) => (None, Some errRead, Closed)
    | (None, false) => (None, Some errNilResponse, Closed)
    | (Some resp, false) => (Some resp, None, Returned)
    end.

(** *** The fan-out over the pools *)

(** What the goroutine of one pool sends on [resps]. *)
Definition sends (r : option Msg) (err : option error) : list (option Msg) :=
  (match err, r with
   | None, Some _ => []
   | _, _ => [None]
   end) ++ [r].

Fixpoint set_nth {X : Type} (l : list X) (i : nat) (x : X) : list X :=
  match l, i with
  | [], _ => []
  | _ :: rest, O => x :: rest
  | y :: rest, S j => y :: set_nth rest j x
  end.

(** The values in the order they enter the channel: [sched] names, send
    after send, the goroutine that sends next; the goroutines still holding
    values when [sched] ends send them in the order of the pools. *)
Fixpoint arrivals (pending : list (list (option Msg))) (sched : list nat)
  : list (option Msg) :=
  match sched with
  | [] => List.concat pending
  | i :: rest =>
      match nth_error pending i with
      | Some (x :: xs) => x :: arrivals (set_nth pending i xs) rest
      | _ => arrivals pending rest
      end
  end.

(** The receiving loop: at most [n] values are taken. *)
Fixpoint receive (n : nat) (resps : list (option Msg)) : option Msg :=
  match n with
  | O => None
  | S n' =>
      match resps with
      | [] => None
      | Some r :: _ => Some r
      | None :: rest => receive n' rest
      end
  end.

(** [forwardMessageAndGetResponse]: [ios] has one entry per pool. *)
Definition forwardMessageAndGetResponse (ios : list exchange_io) (sched : list nat)
  : option Msg :=
  let results := map (fun io => fst (exchangeMessages io)) ios in
  let pending := map (fun re => sends (fst re) (snd re)) results in
  receive (List.length ios) (arrivals pending sched).

(** *** Resolving a query *)

Section Resolver.

(** The server's cache ([s.cache], with its [get] and [put]). *)
Variable C : Type.
Variable cache_get : C -> Msg -> result (C * option Msg * bool).
Variable cache_put : C -> Msg -> Msg -> result C.

(** What the upstreams do at the fan-out number [n] of a run. *)
Variable upstream : nat -> list exchange_io * list nat.

(** The state of a run: the cache, the refresh queue, and the number of
    fan-outs made so far. *)
Record Server : Type := mkServer {
  cache : C;
  rq : list Msg;
  fanouts : nat
}.

(** What the fan-out number [k] of the run returns, and what the fan-out
    number [i] after the state [s] returns. *)
Definition fanout_result (k : nat) : option Msg :=
  forwardMessageAndGetResponse (fst (upstream k)) (snd (upstream k)).

Definition attempt (s : Server) (i : nat) : option Msg :=
  fanout_result (fanouts s + i).

Definition forward_once (s : Server) (q : Msg) : Server * option Msg :=
  let (ios, sched) := upstream (fanouts s) in
  (mkServer (cache s) (rq s) (S (fanouts s)),
   forwardMessageAndGetResponse ios sched).

(** The loop [for c := 0; m == nil && c < 2; c++] with [left] rounds to go. *)
Fixpoint retry (left : nat) (s : Server) (q : Msg) (m : option Msg)
  : Server * option Msg :=
  match m, left with
  | None, S left' =>
      let (s', m') := forward_once s q in retry left' s' q m'
  | _, _ => (s, m)
  end.

(** [forwardMessageAndCacheResponse]. *)
Definition forwardMessageAndCacheResponse (s : Server) (q : Msg)
  : result (Server * option Msg) :=
  let (s1, m1) := forward_once s q in
  let (s2, m2) := retry 2 s1 q m1 in
  match m2 with
  | None => Ok (s2, None)
  | Some r =>
      c' <- cache_put (cache s2) q r ;;
      Ok (mkServer c' (rq s2) (fanouts s2), Some r)
  end.

(** [refresh]: a send that does not block on the buffered queue. *)
Definition refresh (s : Server) (q : Msg) : Server :=
  if (List.length (rq s) <? refreshQueueSize)%nat
  then mkServer (cache s) (rq s ++ [q]) (fanouts s)
  else s.

(** [getAnswer]. *)
Definition getAnswer (s : Server) (q : Msg) : result (Server * option Msg) :=
  r <- cache_get (cache s) q ;;
  let '(c', m, ok) := r in
  let s := mkServer c' (rq s) (fanouts s) in
  if ok then Ok (s, m)
  else
    match m with
    | Some _ => Ok (refresh s q, m)
    | None => forwardMessageAndCacheResponse s q
    end.

Inductive reply : Type :=
| HandleFailed
| WriteMsg (m : Msg).

(** [ServeDNS]: the debug line reads [q.Question[0]] first. *)
Definition ServeDNS (s : Server) (q : Msg) : result (Server * reply) :=
  match Questions q with
  | [] => Panic index_out_of_range
  | _ :: _ =>
      r <- getAnswer s q ;;
      match snd r with
      | None => Ok (fst r, HandleFailed)
      | Some m => Ok (fst r, WriteMsg m)
      end
  end.

End Resolver.

Arguments mkServer {C} cache rq fanouts.
Arguments cache {C} _.
Arguments rq {C} _.
Arguments fanouts {C} _.

End Proxy.

(** ** More of [proxy/server.go]: the refresher, and what the properties of
    the clock and the connector are stated with *)

Module ProxyMore.

Import Proxy.

(** The number of occurrences of a character. *)
Fixpoint count (ch : Ascii.ascii) (s : string) : nat :=
  match s with
  | EmptyString => O
  | String x rest => (if Ascii.eqb x ch then 1 else 0) + count ch rest
  end.

(** The time of the last tick among the events, if any. *)
Fixpoint last_tick (es : list clock_event) : option Time :=
  match es with
  | [] => None
  | e :: rest =>
      match last_tick rest with
      | Some tm => Some tm
      | None => match e with Tick tm => Some tm | RunStarts _ => None end
      end
  end.

(** The time [Run] last stored as the start time, if any. *)
Fixpoint last_start (es : list clock_event) : option Time :=
  match es with
  | [] => None
  | e :: rest =>
      match last_start rest with
      | Some tm => Some tm
      | None => match e with RunStarts tm => Some tm | Tick _ => None end
      end
  end.

Section Refresher.

Variable C : Type.
Variable cache_put : C -> Msg -> Msg -> result C.
Variable upstream : nat -> list exchange_io * list nat.

(** One turn of the loop of [refresher] that receives from the queue: the
    query at the head of the queue is forwarded and the response cached.
    On an empty queue the receive blocks and nothing changes. *)
Definition refresher_turn (s : Server C) : result (Server C) :=
  match rq s with
  | [] => Ok s
  | q :: rest =>
      r <- forwardMessageAndCacheResponse C cache_put upstream
             (mkServer (cache s) rest (fanouts s)) q ;;
      Ok (fst r)
  end.

End Refresher.

End ProxyMore.

(** ** The expiring store of [proxy/cache2.go] *)

Module Store2.

(** [int64] arithmetic wraps around. *)
Definition int64 (z : Z) : Z := (z + 2 ^ 63) mod 2 ^ 64 - 2 ^ 63.

Record cacheItem : Type := mkCacheItem {
  key : string;
  value : option Msg;
  ttl : Z;
  t : Z;
  index : Z
}.

(** [cacheItem.secondsLeft]. *)
Definition secondsLeft (c : cacheItem) (unixNow : Z) : Z :=
  int64 (ttl c - int64 (unixNow - t c)).

(** The store: the slice [pq] with its capacity, the map [m] from keys to
    positions in [pq], and the time [ct] (the field [t] of the Go struct,
    [t] being a field of [cacheItem]).  The field [now] is the clock, whose
    reading is an input of [put] and [newStore]. *)
Record store : Type := mkStore {
  pq : list cacheItem;
  pq_cap : nat;
  m : string -> option nat;
  ct : Z
}.

(** [l[i]]. *)
Definition at_index (l : list cacheItem) (i : nat) : result cacheItem :=
  match nth_error l i with
  | Some x => Ok x
  | None => Panic index_out_of_range
  end.

(** [m[k] = i] and [delete(m, k)]. *)
Definition m_set (f : string -> option nat) (k : string) (i : nat)
  : string -> option nat :=
  fun k' => if String.eqb k' k then Some i else f k'.

Definition m_delete (f : string -> option nat) (k : string)
  : string -> option nat :=
  fun k' => if String.eqb k' k then None else f k'.

Definition with_pq (c : store) (l : list cacheItem) : store :=
  mkStore l (pq_cap c) (m c) (ct c).

Definition with_index (x : cacheItem) (i : Z) : cacheItem :=
  mkCacheItem (key x) (value x) (ttl x) (t x) i.

(** *** The methods of [heap.Interface] *)

Definition Len (c : store) : nat := List.length (pq c).

Definition Less (c : store) (i j : nat) : result bool :=
  x <- at_index (pq c) i ;;
  y <- at_index (pq c) j ;;
  Ok (secondsLeft x (ct c) <? secondsLeft y (ct c)).

(** [Swap]: three assignments of two values each; the right-hand sides and
    the keys on the left are read before the two values are stored. *)
Definition Swap (c : store) (i j : nat) : result store :=
  xj <- at_index (pq c) j ;;
  xi <- at_index (pq c) i ;;
  let pq1 := Proxy.set_nth (Proxy.set_nth (pq c) i xj) j xi in
  yi <- at_index pq1 i ;;
  yj <- at_index pq1 j ;;
  let pq2 := Proxy.set_nth (Proxy.set_nth pq1 i (with_index yi (Z.of_nat i)))
               j (with_index yj (Z.of_nat j)) in
  zi <- at_index pq2 i ;;
  zj <- at_index pq2 j ;;
  Ok (mkStore pq2 (pq_cap c) (m_set (m_set (m c) (key zi) i) (key zj) j) (ct c)).

(** [Push].  [append] keeps the capacity while the slice has room; on a
    full slice it moves the items to a larger array, whose capacity is the
    runtime's choice and at least the new length, the least one here. *)
Definition Push (c : store) (x : cacheItem) : store :=
  let n := List.length (pq c) in
  let item := with_index x (Z.of_nat n) in
  mkStore (pq c ++ [item]) (Nat.max (pq_cap c) (S n)) (m_set (m c) (key item) n)
    (ct c).

(** [Pop]: the last item leaves the slice and the map. *)
Definition Pop (c : store) : result (store * cacheItem) :=
  match List.length (pq c) with
  | O => Panic index_out_of_range
  | S n' =>
      item <- at_index (pq c) n' ;;
      Ok (mkStore (firstn n' (pq c)) (pq_cap c) (m_delete (m c) (key item)) (ct c),
          with_index item (-1))
  end.

(** *** The functions of [container/heap] the store calls *)

(** [up]: the loop runs at most [j] times, the position at least halving. *)
Fixpoint up_loop (fuel : nat) (c : store) (j : nat) : result store :=
  match fuel with
  | O => Ok c
  | S fuel' =>
      let i := ((j - 1) / 2)%nat in
      if (i =? j)%nat then Ok c
      else
        b <- Less c j i ;;
        if negb b then Ok c
        else c' <- Swap c i j ;; up_loop fuel' c' i
  end.

Definition up (c : store) (j : nat) : result store := up_loop (S j) c j.

(** [down]: the position grows at every turn and stays below [n]. *)
Fixpoint down_loop (fuel : nat) (c : store) (i0 i n : nat) : result (store * bool) :=
  match fuel with
  | O => Ok (c, (i0 <? i)%nat)
  | S fuel' =>
      let j1 := (2 * i + 1)%nat in
      if (n <=? j1)%nat then Ok (c, (i0 <? i)%nat)
      else
        b2 <- (if (j1 + 1 <? n)%nat then Less c (j1 + 1) j1 else Ok false) ;;
        let j := if b2 then (j1 + 1)%nat else j1 in
        b <- Less c j i ;;
        if negb b then Ok (c, (i0 <? i)%nat)
        else c' <- Swap c i j ;; down_loop fuel' c' i0 j n
  end.

Definition down (c : store) (i0 n : nat) : result (store * bool) :=
  down_loop n c i0 i0 n.

(** [heap.Init]: [down] from position [n/2 - 1] back to position 0. *)
Fixpoint Init_loop (k : nat) (c : store) (n : nat) : result store :=
  match k with
  | O => Ok c
  | S k' => r <- down c k' n ;; Init_loop k' (fst r) n
  end.

Definition heap_Init (c : store) : result store :=
  Init_loop (Len c / 2) c (Len c).

Definition heap_Push (c : store) (x : cacheItem) : result store :=
  let c1 := Push c x in
  up c1 (Len c1 - 1).

(** [heap.Pop]: on an empty store the position [Len - 1] is -1. *)
Definition heap_Pop (c : store) : result (store * cacheItem) :=
  match Len c with
  | O => Panic index_out_of_range
  | S n =>
      c1 <- Swap c 0 n ;;
      r <- down c1 0 n ;;
      Pop (fst r)
  end.

Definition heap_Fix (c : store) (i : nat) : result store :=
  r <- down c i (Len c) ;;
  if negb (snd r) then up (fst r) i else Ok (fst r).

(** *** The store's own operations *)

(** [newStore]; [make] panics on a negative size. *)
Definition newStore (size : Z) (now : Z) : result store :=
  if size <? 0 then Panic "makeslice: cap out of range"
  else heap_Init (mkStore [] (Z.to_nat size) (fun _ => None) now).

(** [store.get]. *)
Definition get (c : store) (k : string) : result (option Msg) :=
  match m c k with
  | None => Ok None
  | Some i => x <- at_index (pq c) i ;; Ok (value x)
  end.

(** [store.put]; [now] is the reading of the clock.  The TTL is an [int],
    of 64 bits, and [int64(ttl)] is the same number. *)
Definition put (c : store) (k : string) (v : option Msg) (ttl0 : Z) (now : Z)
  : result store :=
  let c := mkStore (pq c) (pq_cap c) (m c) now in
  match m c k with
  | Some i =>
      x <- at_index (pq c) i ;;
      let pq1 :=
        Proxy.set_nth (pq c) i (mkCacheItem (key x) v (ttl x) (t x) (index x)) in
      y <- at_index pq1 i ;;
      let pq2 :=
        Proxy.set_nth pq1 i (mkCacheItem (key y) (value y) ttl0 (t y) (index y)) in
      heap_Fix (with_pq c pq2) i
  | None =>
      c1 <- (if (List.length (pq c) =? pq_cap c)%nat
             then r <- heap_Pop c ;; Ok (fst r)
             else Ok c) ;;
      heap_Push c1 (mkCacheItem k v ttl0 0 0)
  end.

(** What the store holds under a key: the value, the TTL and the
    insertion time of the item the map points to. *)
Definition entry (c : store) (k : string) : option (option Msg * Z * Z) :=
  match m c k with
  | None => None
  | Some i => option_map (fun x => (value x, ttl x, t x)) (nth_error (pq c) i)
  end.

(** The map and the slice agree: the map sends the key of every item to
    the position of the item, and only that. *)
Definition consistent (c : store) : Prop :=
  (forall i x, nth_error (pq c) i = Some x -> m c (key x) = Some i)
  /\ (forall k i, m c k = Some i ->
        exists x, nth_error (pq c) i = Some x /\ key x = k).

(** [c'] holds the items of [c], maybe at other positions: the same
    entries under the same keys, the same length, capacity and time, and a
    map that agrees with the slice. *)
Definition rearranged (c c' : store) : Prop :=
  consistent c'
  /\ List.length (pq c') = List.length (pq c)
  /\ pq_cap c' = pq_cap c
  /\ ct c' = ct c
  /\ forall k, entry c' k = entry c k.

(** A run of [put]s, each with its key, value, TTL and clock reading. *)
Fixpoint puts (c : store) (ops : list (string * option Msg * Z * Z))
  : result store :=
  match ops with
  | [] => Ok c
  | (k, v, ttl0, now) :: rest => c' <- put c k v ttl0 now ;; puts c' rest
  end.

(** The seconds left of the item at a position, at the time of the store
    (0 past the end of the slice). *)
Definition seconds_at (c : store) (p : nat) : Z :=
  match nth_error (pq c) p with
  | Some x => secondsLeft x (ct c)
  | None => 0
  end.

(** The heap order among the first [n] positions: no item has fewer
    seconds left than its parent, the item at position [(k - 1) / 2]. *)
Definition ordered_below (n : nat) (c : store) : Prop :=
  forall k, (0 < k < n)%nat -> seconds_at c ((k - 1) / 2) <= seconds_at c k.

Definition heap_ordered (c : store) : Prop := ordered_below (Len c) c.

(** Times and TTLs far from the ends of [int64]: no subtraction of
    [secondsLeft] wraps around. *)
Definition in_bounds (z : Z) : Prop := - 2 ^ 61 <= z <= 2 ^ 61.

Definition bounded (c : store) : Prop :=
  in_bounds (ct c)
  /\ forall k v l t0, entry c k = Some (v, l, t0) -> in_bounds l /\ in_bounds t0.

Definition ops_in_bounds (ops : list (string * option Msg * Z * Z)) : Prop :=
  Forall (fun op => in_bounds (snd (fst op)) /\ in_bounds (snd op)) ops.

(** No entry carries an insertion time. *)
Definition untimed (c : store) : Prop :=
  forall k v l t0, entry c k = Some (v, l, t0) -> t0 = 0.

End Store2.

(** ** Reference instances of the parts the sources leave out *)

Module ArcModel.

Import DnsCache.

(** Modelled from the spec: the replacement cache behind the response cache
    is the external package [arc]; the spec asks of it a bounded container
    with a deterministic eviction and says a plain LRU may take its place.
    This is that LRU: the entries most recently used first, cut to the size
    (to one entry when the size is below one). *)
Record arc : Type := mkArc {
  size : nat;
  entries : list (string * CacheValue)
}.

Definition New (size : nat) : arc := mkArc size [].

Fixpoint lookup (k : string) (l : list (string * CacheValue)) : option CacheValue :=
  match l with
  | [] => None
  | (k', v) :: rest => if String.eqb k k' then Some v else lookup k rest
  end.

Fixpoint remove (k : string) (l : list (string * CacheValue))
  : list (string * CacheValue) :=
  match l with
  | [] => []
  | (k', v) :: rest =>
      if String.eqb k k' then remove k rest else (k', v) :: remove k rest
  end.

Definition Get (a : arc) (k : string) : arc * option CacheValue :=
  match lookup k (entries a) with
  | None => (a, None)
  | Some v => (mkArc (size a) ((k, v) :: remove k (entries a)), Some v)
  end.

Definition Put (a : arc) (k : string) (v : CacheValue) : arc :=
  mkArc (size a) (firstn (Nat.max 1 (size a)) ((k, v) :: remove k (entries a))).

Definition impl : ArcImpl := mkArcImpl arc Get Put.

End ArcModel.

Module StoreModel.

Import Specialized.

Section Store.

Variable V : Type.

(** Modelled from the spec: the store of the replacement cache (a priority
    queue with a lookup map) is not among the sources; the spec asks for a
    bounded container whose eviction is deterministic.  This store keeps its
    items in a list ordered by priority, the item to evict first at the
    head: by last access for [byTime], by access count and then last access
    for [byAccesses]. *)
Record lstore : Type := mkLstore {
  items : list (item V);
  capacity : Z;
  sort : sortType
}.

Definition less (s : sortType) (i j : item V) : bool :=
  match s with
  | byTime => t V i <? t V j
  | byAccesses => (a V i <? a V j) || ((a V i =? a V j) && (t V i <? t V j))
  end.

Fixpoint insert (s : sortType) (x : item V) (l : list (item V)) : list (item V) :=
  match l with
  | [] => [x]
  | y :: rest => if less s x y then x :: y :: rest else y :: insert s x rest
  end.

Fixpoint extract (k : string) (l : list (item V)) : option (item V * list (item V)) :=
  match l with
  | [] => None
  | y :: rest =>
      if String.eqb k (key V y) then Some (y, rest)
      else match extract k rest with
           | None => None
           | Some (x, rest') => Some (x, y :: rest')
           end
  end.

Definition lnewStore (n : Z) (s : sortType) : lstore := mkLstore [] n s.

Definition lget (s : lstore) (now : Z) (k : string) : lstore * (Value V * bool) :=
  match extract k (items s) with
  | None => (s, (None, false))
  | Some (x, rest) =>
      (mkLstore (insert (sort s) (mkItem k (v V x) (a V x + 1) now) rest)
                (capacity s) (sort s),
       (v V x, true))
  end.

Definition lupdate (s : lstore) (now : Z) (k : string) (x : Value V) : lstore * bool :=
  match extract k (items s) with
  | None => (s, false)
  | Some (y, rest) =>
      (mkLstore (insert (sort s) (mkItem k x (a V y + 1) now) rest)
                (capacity s) (sort s),
       true)
  end.

Definition lput (s : lstore) (now : Z) (k : string) (x : Value V) (n : Z)
  : lstore * item V :=
  let new := mkItem k x n now in
  if Z.of_nat (List.length (items s)) =? capacity s then
    match items s with
    | [] => (mkLstore [new] (capacity s) (sort s), zero_item)
    | y :: rest => (mkLstore (insert (sort s) new rest) (capacity s) (sort s), y)
    end
  else (mkLstore (insert (sort s) new (items s)) (capacity s) (sort s), zero_item).

Definition lpeek (s : lstore) : item V :=
  match items s with
  | [] => zero_item
  | y :: _ => y
  end.

Definition lLen (s : lstore) : Z := Z.of_nat (List.length (items s)).
Definition lcap (s : lstore) : Z := capacity s.

(** The times are handed out afresh, in the order of the list. *)
Fixpoint renumber (n : Z) (l : list (item V)) : list (item V) * Z :=
  match l with
  | [] => ([], n)
  | y :: rest =>
      let (rest', n') := renumber (n + 1) rest in
      (mkItem (key V y) (v V y) (a V y) n :: rest', n')
  end.

Definition lreset (s : lstore) (n : Z) : lstore * Z :=
  let (l, n') := renumber n (items s) in
  (mkLstore l (capacity s) (sort s), n').

Definition impl : StoreImpl V :=
  mkStoreImpl V lstore lnewStore lget lupdate lput lpeek lLen lcap lreset.

End Store.

End StoreModel.

Module NetModel.

(** A stand-in for [net.SplitHostPort] on addresses without brackets: the
    port starts after the last colon, and the host holds no colon. *)
Fixpoint split_last_colon (s : string) : option (string * string) :=
  match s with
  | EmptyString => None
  | String ch rest =>
      match split_last_colon rest with
      | Some (h, p) => Some (String ch h, p)
      | None =>
          if Ascii.eqb ch ":"%char then Some (EmptyString, rest) else None
      end
  end.

Definition SplitHostPort (hostport : string) : (string * string) + string :=
  match split_last_colon hostport with
  | None => inr "missing port in address"%string
  | Some (host, port) =>
      if Proxy.contains ":"%char host
      then inr "too many colons in address"%string
      else inl (host, port)
  end.

(** A [dial] that always connects; the connection records what was dialled. *)
Definition dial_ok (addr : string) (cfg : Proxy.tlsConfig)
  : (string * Proxy.tlsConfig) + string :=
  inl (addr, cfg).

(** A [dial] that never connects. *)
Definition dial_refused (addr : string) (cfg : Proxy.tlsConfig)
  : (string * Proxy.tlsConfig) + string :=
  inr "connection refused"%string.

End NetModel.

(** ** Sample values *)

Module Examples.

Import DnsCache.

(** A fingerprint that tells questions apart by their names. *)
Definition name_String (q : Question) : string := Name q.

Definition question : Question := mkQuestion "example.org." 1 1.

Definition query (id : Z) : Msg := mkMsg id false false [question] [].

Definition no_question : Msg := mkMsg 7 false false [] [].

(** A response with one address record of the given TTL. *)
Definition response (ttl : Z) : Msg :=
  mkMsg 99 true false [question] [mkRR "example.org." 1 ttl "192.0.2.1"].

Definition empty_response : Msg := mkMsg 99 false false [question] [].

Definition cache0 : Cache ArcModel.impl :=
  mkCache (A := ArcModel.impl) (ArcModel.New 4).

(** The cache after [Put] of [response ttl] at the instant [t0]. *)
Definition cache_with (ttl : Z) (t0 : Time) : Cache ArcModel.impl :=
  match Put name_String cache0 (query 7) (response ttl) t0 with
  | Ok c1 => c1
  | Panic _ => cache0
  end.

(** A pool whose exchange fails and a pool that answers with [r]. *)
Definition failing_pool : Proxy.exchange_io :=
  Proxy.mkExchangeIO false true (None, false).
Definition answering_pool (r : Msg) : Proxy.exchange_io :=
  Proxy.mkExchangeIO false false (Some r, false).

(** Five entries put into a replacement cache of size 3, then one looked
    up. *)
Definition sample_ops : list (Specialized.op nat) :=
  [Specialized.OpPut nat "a" (Some 1%nat) 0;
   Specialized.OpPut nat "b" (Some 2%nat) 0;
   Specialized.OpPut nat "c" (Some 3%nat) 0;
   Specialized.OpPut nat "d" (Some 4%nat) 0;
   Specialized.OpPut nat "e" (Some 5%nat) 0;
   Specialized.OpGet nat "e" 0].

Definition sample_cache : Specialized.Cache nat (StoreModel.impl nat) :=
  Specialized.mkCache nat (StoreModel.impl nat)
    (Specialized.newStore nat (StoreModel.impl nat) 1 Specialized.byTime)
    (Specialized.newStore nat (StoreModel.impl nat) 2 Specialized.byAccesses)
    0 false 3.

(** Stores of [proxy/cache2.go]: of capacity 2 holding the keys [a] and
    [b] with 300 and 60 seconds to live, and the same after a third [put]. *)
Definition store_ops : list (string * option Msg * Z * Z) :=
  [("a"%string, Some (response 300), 300, 1000);
   ("b"%string, Some (response 60), 60, 1001)].

Definition empty_store : Store2.store :=
  Store2.mkStore [] 2 (fun _ => None) 1000.

Definition full_store : Store2.store :=
  match Store2.puts empty_store store_ops with
  | Ok c => c
  | Panic _ => empty_store
  end.

(** A server over the response cache with the LRU behind it: lookups read
    the clock two seconds after the zero instant, and so do insertions. *)
Definition sample_get (c : Cache ArcModel.impl) (q : Msg)
  : result (Cache ArcModel.impl * option Msg * bool) :=
  Get name_String c q (2 * Second) (fun _ => 2 * Second).

Definition sample_put (c : Cache ArcModel.impl) (q v : Msg)
  : result (Cache ArcModel.impl) :=
  Put name_String c q v (2 * Second).

(** Upstreams that never answer, and upstreams that always answer. *)
Definition nil_upstream (n : nat) : list Proxy.exchange_io * list nat :=
  ([failing_pool], []).

Definition answering_upstream (n : nat) : list Proxy.exchange_io * list nat :=
  ([answering_pool (response 120)], []).

(** The stale clone a lookup of [query 8] returns two seconds after a
    response with a TTL of one second was put at the zero instant, the
    cache that lookup leaves, and that cache after the refresh. *)
Definition stale_clone : Msg :=
  match sample_get (cache_with 1 0) (query 8) with
  | Ok (_, Some r, _) => r
  | _ => query 8
  end.

Definition cache_after_lookup : Cache ArcModel.impl :=
  match sample_get (cache_with 1 0) (query 8) with
  | Ok (c, _, _) => c
  | Panic _ => cache0
  end.

Definition cache_after_refresh : Cache ArcModel.impl :=
  match sample_put cache_after_lookup (query 8) (response 120) with
  | Ok c => c
  | Panic _ => cache0
  end.

End Examples.

(** * Properties *)

(** ** The reference instances keep their contracts *)

Lemma ArcModel_put_get : DnsCache.ArcPutGet ArcModel.impl.
Proof.
  intros a k v. cbn [DnsCache.arc_Get DnsCache.arc_Put ArcModel.impl].
  unfold ArcModel.Get, ArcModel.Put. cbn [ArcModel.entries ArcModel.size].
  destruct (Nat.max 1 (ArcModel.size a)) as [|n] eqn:E; [lia|].
  cbn [firstn ArcModel.lookup]. now rewrite String.eqb_refl.
Qed.

(** ** The response cache *)

Section CacheFacts.

Import DnsCache.

Variable question_String : Question -> string.
Variable A : ArcImpl.

Lemma key_defined q :
  Questions q <> [] -> exists k, key question_String q = Ok k.
Proof.
  unfold DnsCache.key. destruct (Questions q); [congruence|]. eauto.
Qed.

Lemma key_panics q :
  Questions q = [] -> key question_String q = Panic index_out_of_range.
Proof. unfold DnsCache.key. now intros ->. Qed.

(** The loop of [Put] computes the least expiration, capped at [maxTTL]. *)
Lemma min_expiration_fold now rs : forall acc,
  rs <> [] ->
  fold_left (earlier_expiration now) rs acc
  = Z.min acc (now + min_ttl rs * Second).
Proof.
  induction rs as [|a rest IH]; intros acc Hne; [congruence|].
  destruct rest as [|b rest].
  - simpl. unfold earlier_expiration, Before, Add, Second.
    destruct (Z.ltb_spec (now + Ttl a * 1000000000) acc); lia.
  - change (min_ttl (a :: b :: rest)) with (Z.min (Ttl a) (min_ttl (b :: rest))).
    change (fold_left (earlier_expiration now) (a :: b :: rest) acc)
      with (fold_left (earlier_expiration now) (b :: rest)
              (earlier_expiration now acc a)).
    rewrite IH by discriminate.
    unfold earlier_expiration, Before, Add, Second.
    destruct (Z.ltb_spec (now + Ttl a * 1000000000) acc); lia.
Qed.

Lemma min_expiration_capped now rs :
  rs <> [] ->
  min_expiration now rs = now + Z.min (min_ttl rs * Second) maxTTL.
Proof.
  intros Hne. unfold min_expiration. rewrite min_expiration_fold by assumption.
  unfold Add. lia.
Qed.

Lemma Put_stores ca q v t0 k :
  key question_String q = Ok k -> Answer v <> [] ->
  Put question_String ca q v t0
  = Ok (mkCache (arc_Put A (c ca) k
                   (mkCacheValue (canonical v) (min_expiration t0 (Answer v))))).
Proof.
  intros Hk Hne. unfold DnsCache.Put.
  destruct (Answer v) eqn:E; [congruence|]. now rewrite Hk.
Qed.

Lemma Get_hit ca q k a' cv now since :
  key question_String q = Ok k -> arc_Get A (c ca) k = (a', Some cv) ->
  Get question_String ca q now since
  = if Before (exp cv) now
    then Ok (mkCache a',
             Some (set_Answer (set_Id (m cv) (Id q)) (stale_answers (Answer (m cv)))),
             false)
    else Ok (mkCache a',
             Some (set_Answer (set_Id (m cv) (Id q))
                     (fresh_answers (exp cv) since 0 (Answer (m cv)))),
             true).
Proof.
  intros Hk Hg. unfold DnsCache.Get. rewrite Hk. simpl. rewrite Hg. reflexivity.
Qed.

Lemma Get_miss ca q k a' now since :
  key question_String q = Ok k -> arc_Get A (c ca) k = (a', None) ->
  Get question_String ca q now since = Ok (mkCache a', None, false).
Proof.
  intros Hk Hg. unfold DnsCache.Get. rewrite Hk. simpl. now rewrite Hg.
Qed.

Lemma fresh_answers_length e since rs : forall i,
  List.length (fresh_answers e since i rs) = List.length rs.
Proof. induction rs as [|a rest IH]; intros i; simpl; [|rewrite IH]; reflexivity. Qed.


Lemma stale_answers_sixty rs :
  Forall (fun x => Ttl x = 60) (stale_answers rs).
Proof. induction rs; simpl; constructor; auto. Qed.


End CacheFacts.

Section CacheClaims.

Import DnsCache.

Variable question_String : Question -> string.
Variable A : ArcImpl.

(** C1.  A [Put] of a response with at least one answer, all TTLs positive,
    followed by a [Get] of the same query read within a second of the
    [Put], yields a response with the fresh flag set, and that response
    carries the identifier of the query.  The replacement cache is assumed
    to find what was just put, and the query to carry a question. *)
Theorem put_then_get_is_fresh :
  forall (ca : Cache A) (q v : Msg) (t0 now : Time) (since : nat -> Time),
    ArcPutGet A ->
    Questions q <> [] ->
    Answer v <> [] ->
    0 < min_ttl (Answer v) ->
    now <= t0 + Second ->
    exists c1 c2 r,
      Put question_String ca q v t0 = Ok c1
      /\ Get question_String c1 q now since = Ok (c2, Some r, true)
      /\ Id r = Id q.
Proof.
  intros ca q v t0 now since Hlaw Hq Hv Httl Hnow.
  destruct (key_defined question_String q Hq) as [k Hk].
  rewrite (Put_stores question_String A ca q v t0 k Hk Hv).
  set (cv := mkCacheValue (canonical v) (min_expiration t0 (Answer v))).
  specialize (Hlaw (c ca) k cv).
  destruct (arc_Get A (arc_Put A (c ca) k cv) k) as [a' r] eqn:Hg.
  simpl in Hlaw. subst r.
  eexists. eexists. eexists. split; [reflexivity|].
  rewrite (Get_hit question_String A
             (mkCache (arc_Put A (c ca) k cv)) q k a' cv now since Hk Hg).
  assert (Hfresh : Before (exp cv) now = false).
  { unfold Before, cv. cbn [exp]. rewrite min_expiration_capped by assumption.
    apply Z.ltb_ge. unfold maxTTL, Hour, Second in *. lia. }
  rewrite Hfresh. split; reflexivity.
Qed.



(** C5, amended.  A [Put] of a response without answers leaves the cache
    as it was, so the [Get] that follows sees the cache of before: it is a
    miss when the fingerprint of the query was not cached. *)
Theorem put_without_answers_is_noop :
  forall (ca : Cache A) (q v : Msg) (t0 : Time),
    Questions q <> [] ->
    Answer v = [] ->
    Put question_String ca q v t0 = Ok ca
    /\ forall (k : string) (a' : ARC A) (now : Time) (since : nat -> Time),
         key question_String q = Ok k ->
         arc_Get A (c ca) k = (a', None) ->
         Get question_String ca q now since = Ok (mkCache a', None, false).
Proof.
  intros ca q v t0 Hq Hv. split.
  - unfold DnsCache.Put. rewrite Hv.
    destruct (key_defined question_String q Hq) as [k ->]. reflexivity.
  - intros k a' now since Hk Hg. now apply Get_miss with (k := k).
Qed.

End CacheClaims.

Section CacheClaimsAtSamples.

Import DnsCache Examples.

Lemma put_then_get_is_fresh_witness :
  exists c1 c2 r,
    Put name_String cache0 (query 7) (response 300) 1000 = Ok c1
    /\ Get name_String c1 (query 7) (1000 + 500 * Millisecond)
         (fun _ => 1000 + 500 * Millisecond)
       = Ok (c2, Some r, true)
    /\ Id r = Id (query 7).
Proof.
  apply (put_then_get_is_fresh name_String ArcModel.impl cache0 (query 7)
           (response 300) 1000 (1000 + 500 * Millisecond)
           (fun _ => 1000 + 500 * Millisecond)).
  - exact ArcModel_put_get.
  - discriminate.
  - discriminate.
  - vm_compute. reflexivity.
  - vm_compute. discriminate.
Defined.





(** C5 as stated fails: when the fingerprint is cached already, the [Put]
    of a response without answers changes nothing and the [Get] that
    follows is a hit. *)
Lemma put_without_answers_counterexample :
  Answer empty_response = []
  /\ Put name_String (cache_with 300 0) (query 7) empty_response 1
     = Ok (cache_with 300 0)
  /\ exists c3 r,
       Get name_String (cache_with 300 0) (query 7) 1 (fun _ => 1)
       = Ok (c3, Some r, true).
Proof.
  split; [reflexivity|]. split; [reflexivity|].
  eexists. eexists. vm_compute. reflexivity.
Qed.

Lemma put_without_answers_is_noop_witness :
  Put name_String cache0 (query 7) empty_response 1 = Ok cache0
  /\ forall (k : string) (a' : ARC ArcModel.impl) (now : Time)
            (since : nat -> Time),
       key name_String (query 7) = Ok k ->
       arc_Get ArcModel.impl (c cache0) k = (a', None) ->
       Get name_String cache0 (query 7) now since = Ok (mkCache a', None, false).
Proof.
  apply (put_without_answers_is_noop name_String ArcModel.impl cache0 (query 7)
           empty_response 1).
  - discriminate.
  - reflexivity.
Defined.

End CacheClaimsAtSamples.

(** ** The replacement cache stays within its capacity *)

Section ListStoreFacts.

Import Specialized StoreModel.

Variable V : Type.

Lemma insert_length s x (l : list (item V)) :
  List.length (insert V s x l) = S (List.length l).
Proof.
  induction l as [|y rest IH]; simpl; [reflexivity|].
  destruct (less V s x y); simpl; [reflexivity|]. now rewrite IH.
Qed.

Lemma extract_length k (l : list (item V)) : forall x rest,
  extract V k l = Some (x, rest) -> List.length l = S (List.length rest).
Proof.
  induction l as [|y l IH]; intros x rest H; simpl in H; [discriminate|].
  destruct (String.eqb k (key V y)).
  - injection H as _ <-. reflexivity.
  - destruct (extract V k l) as [[x' rest']|]; [|discriminate].
    injection H as _ <-. simpl. now rewrite (IH x' rest').
Qed.

Lemma renumber_length (l : list (item V)) : forall n,
  List.length (fst (renumber V n l)) = List.length l.
Proof.
  induction l as [|y rest IH]; intros n; simpl; [reflexivity|].
  specialize (IH (n + 1)). destruct (renumber V (n + 1) rest) as [rest' n'].
  simpl in *. now rewrite IH.
Qed.

Lemma ListStore_laws : StoreLaws V (StoreModel.impl V).
Proof.
  constructor; cbn [Len cap newStore get update put reset StoreModel.impl].
  - reflexivity.
  - reflexivity.
  - intros s now k. unfold lget, lLen.
    destruct (extract V k (items V s)) as [[x rest]|] eqn:E; [|reflexivity].
    cbn [fst items]. rewrite insert_length. now rewrite (extract_length _ _ _ _ E).
  - intros s now k. unfold lget, lcap.
    now destruct (extract V k (items V s)) as [[x rest]|].
  - intros s now k x. unfold lupdate, lLen.
    destruct (extract V k (items V s)) as [[y rest]|] eqn:E; [|reflexivity].
    cbn [fst items]. rewrite insert_length. now rewrite (extract_length _ _ _ _ E).
  - intros s now k x. unfold lupdate, lcap.
    now destruct (extract V k (items V s)) as [[y rest]|].
  - intros s now k x n Hpos Hle. unfold lput, lLen, lcap in *.
    destruct (Z.eqb_spec (Z.of_nat (List.length (items V s))) (capacity V s)) as [E|E].
    + destruct (items V s) as [|y rest] eqn:Ei.
      * simpl in E. lia.
      * cbn [fst items]. rewrite insert_length. simpl in E. lia.
    + cbn [fst items]. rewrite insert_length. lia.
  - intros s now k x n. unfold lput, lcap.
    destruct (Z.of_nat (List.length (items V s)) =? capacity V s); [|reflexivity].
    now destruct (items V s).
  - intros s n. unfold lreset, lLen.
    pose proof (renumber_length (items V s) n) as H.
    destruct (renumber V n (items V s)) as [l n']. cbn [fst items] in *.
    now rewrite H.
  - intros s n. unfold lreset, lcap.
    now destruct (renumber V n (items V s)).
Qed.

End ListStoreFacts.

Section SpecializedFacts.

Import Specialized.

Variable V : Type.
Variable S : StoreImpl V.
Hypothesis laws : StoreLaws V S.

Lemma update_sizes s n k x s' ok :
  update V S s n k x = (s', ok) ->
  Len V S s' = Len V S s /\ cap V S s' = cap V S s.
Proof.
  intros E. pose proof (update_Len V S laws s n k x) as H1.
  pose proof (update_cap V S laws s n k x) as H2.
  rewrite E in H1, H2. now split.
Qed.

Lemma get_sizes s n k s' r :
  get V S s n k = (s', r) ->
  Len V S s' = Len V S s /\ cap V S s' = cap V S s.
Proof.
  intros E. pose proof (get_Len V S laws s n k) as H1.
  pose proof (get_cap V S laws s n k) as H2.
  rewrite E in H1, H2. now split.
Qed.

Lemma put_sizes s n k x acc s' ovf :
  put V S s n k x acc = (s', ovf) ->
  0 < cap V S s -> Len V S s <= cap V S s ->
  Len V S s' <= cap V S s /\ cap V S s' = cap V S s.
Proof.
  intros E Hpos Hle. pose proof (put_Len V S laws s n k x acc Hpos Hle) as H1.
  pose proof (put_cap V S laws s n k x acc) as H2.
  rewrite E in H1, H2. now split.
Qed.

Lemma reset_sizes s n s' n' :
  reset V S s n = (s', n') ->
  Len V S s' = Len V S s /\ cap V S s' = cap V S s.
Proof.
  intros E. pose proof (reset_Len V S laws s n) as H1.
  pose proof (reset_cap V S laws s n) as H2.
  rewrite E in H1, H2. now split.
Qed.

Lemma now_within l0 m0 c timer c' n :
  within V S l0 m0 c -> now V S c timer = (c', n) -> within V S l0 m0 c'.
Proof.
  unfold within, now. intros H E.
  destruct (timeNow V S c); [injection E as <- _; exact H|].
  destruct (uint_of_int (ct V S c + 1) =? 0).
  - destruct (reset V S (lru V S c) _) as [l1 t2] eqn:E1.
    destruct (reset V S (mfa V S c) t2) as [m1 t3] eqn:E2.
    apply reset_sizes in E1, E2. injection E as <- _. cbn [lru mfa].
    destruct E1 as [-> ->], E2 as [-> ->]. exact H.
  - injection E as <- _. exact H.
Qed.

Lemma Put_within l0 m0 c k x timer :
  within V S l0 m0 c -> within V S l0 m0 (Put V S c k x timer).
Proof.
  intros H. unfold Put.
  destruct (now V S c timer) as [c1 n] eqn:En.
  apply (now_within _ _ _ _ _ _ H) in En. clear H c.
  destruct c1 as [l m tt tn cp]. unfold within in *. cbn [lru mfa] in *.
  destruct En as (Hl & Hm & Hl0 & Hm0 & Hll & Hlm).
  unfold with_mfa, with_lru. cbn [lru mfa ct timeNow capacity].
  destruct (update V S m n k x) as [m1 ok1] eqn:E1.
  apply update_sizes in E1. destruct E1 as [E1l E1c].
  destruct ok1; cbn [lru mfa]; [repeat split; lia|].
  destruct (update V S l n k x) as [l1 ok2] eqn:E2.
  apply update_sizes in E2. destruct E2 as [E2l E2c].
  destruct ok2; cbn [lru mfa]; [repeat split; lia|].
  destruct (put V S l1 n k x 1) as [l2 lruovf] eqn:E3.
  apply put_sizes in E3; [|lia|lia]. destruct E3 as [E3l E3c].
  destruct (is_nil V (v V lruovf)); cbn [lru mfa]; [repeat split; lia|].
  destruct (Z.ltb_spec (Len V S m1) (cap V S m1)) as [Hroom|Hfull].
  - pose proof (put_Len V S laws m1 n (key V lruovf) (v V lruovf) (a V lruovf)) as P1.
    pose proof (put_cap V S laws m1 n (key V lruovf) (v V lruovf) (a V lruovf)) as P2.
    cbn [lru mfa]. repeat split; lia.
  - destruct ((a V (peek V S m1) <? a V lruovf)
              || (a V (peek V S m1) =? a V lruovf)
                 && (t V (peek V S m1) <? t V lruovf));
      cbn [lru mfa]; [repeat split; lia|].
    destruct (put V S m1 n (key V lruovf) (v V lruovf) (a V lruovf))
      as [m2 mfaovf] eqn:E4.
    apply put_sizes in E4; [|lia|lia]. destruct E4 as [E4l E4c].
    cbn [lru mfa].
    destruct ((Len V S l2 >? 0) && (a V (peek V S l2) <? a V mfaovf));
      cbn [lru mfa]; [|repeat split; lia].
    pose proof (put_Len V S laws l2 n (key V mfaovf) (v V mfaovf) 1) as P1.
    pose proof (put_cap V S laws l2 n (key V mfaovf) (v V mfaovf) 1) as P2.
    repeat split; lia.
Qed.

Lemma Get_within l0 m0 c k timer :
  within V S l0 m0 c -> within V S l0 m0 (fst (Get V S c k timer)).
Proof.
  intros H. unfold Get.
  destruct (now V S c timer) as [c1 n] eqn:En.
  apply (now_within _ _ _ _ _ _ H) in En. clear H c.
  destruct c1 as [l m tt tn cp]. unfold within in *. cbn [lru mfa] in *.
  destruct En as (Hl & Hm & Hl0 & Hm0 & Hll & Hlm).
  unfold with_mfa, with_lru. cbn [lru mfa ct timeNow capacity].
  destruct (get V S m n k) as [m1 r1] eqn:E1.
  apply get_sizes in E1. destruct E1 as [E1l E1c].
  destruct (snd r1); cbn [fst lru mfa]; [repeat split; lia|].
  destruct (get V S l n k) as [l1 r2] eqn:E2.
  apply get_sizes in E2. destruct E2 as [E2l E2c].
  destruct (snd r2); cbn [fst lru mfa]; repeat split; lia.
Qed.

Lemma states_within l0 m0 ops : forall c,
  within V S l0 m0 c -> Forall (within V S l0 m0) (states V S c ops).
Proof.
  induction ops as [|o rest IH]; intros c H; simpl; constructor.
  - destruct o; simpl; [now apply Put_within | now apply Get_within].
  - apply IH. destruct o; simpl; [now apply Put_within | now apply Get_within].
Qed.

Lemma NewCache_within size c0 :
  NewCache V S size = Built V S c0 ->
  2 <= size
  /\ within V S (Z.quot size 2) (Z.quot size 2 + Z.rem size 2) c0.
Proof.
  unfold NewCache. intros E.
  destruct (Z.leb_spec size 0); [discriminate|].
  destruct (Z.ltb_spec size 2); [discriminate|].
  destruct (uint_of_int size >? maxsize); [discriminate|].
  injection E as <-. split; [assumption|].
  assert (Hq : 1 <= Z.quot size 2).
  { rewrite Z.quot_div_nonneg by lia. apply Z.div_le_lower_bound; lia. }
  assert (Hr : 0 <= Z.rem size 2) by (apply Z.rem_nonneg; lia).
  unfold within. cbn [lru mfa].
  rewrite !(newStore_Len V S laws), !(newStore_cap V S laws) by lia.
  repeat split; lia.
Qed.

(** C2.  On a cache built by [NewCache size], the capacity [Cap] is [size],
    and after every operation of any sequence of [Put]s and [Get]s the
    number of stored entries [Len] is at most [Cap], which stays [size]. *)
Theorem cache_len_within_cap :
  forall (size : Z) (c0 : Cache V S) (ops : list (op V)),
    NewCache V S size = Built V S c0 ->
    CacheCap V S c0 = size
    /\ CacheLen V S c0 <= CacheCap V S c0
    /\ Forall (fun c => CacheLen V S c <= CacheCap V S c
                        /\ CacheCap V S c = size)
         (states V S c0 ops).
Proof.
  intros size c0 ops Hnew.
  destruct (NewCache_within size c0 Hnew) as [Hsize Hin].
  assert (Hsum : Z.quot size 2 + (Z.quot size 2 + Z.rem size 2) = size).
  { pose proof (Z.quot_rem' size 2). lia. }
  assert (Hbound : forall c,
             within V S (Z.quot size 2) (Z.quot size 2 + Z.rem size 2) c ->
             CacheLen V S c <= CacheCap V S c /\ CacheCap V S c = size).
  { intros c (Hl & Hm & _ & _ & Hll & Hlm). unfold CacheLen, CacheCap. lia. }
  destruct (Hbound c0 Hin) as [H1 H2].
  split; [assumption|]. split; [assumption|].
  eapply Forall_impl; [exact Hbound|]. now apply states_within.
Qed.

End SpecializedFacts.

Section SpecializedAtSamples.

Import Specialized Examples.

Example sample_lengths :
  map (CacheLen nat (StoreModel.impl nat))
    (states nat (StoreModel.impl nat) sample_cache sample_ops)
  = [1; 2; 3; 3; 3; 3].
Proof. vm_compute. reflexivity. Qed.

Lemma cache_len_within_cap_witness :
  CacheCap nat (StoreModel.impl nat) sample_cache = 3
  /\ CacheLen nat (StoreModel.impl nat) sample_cache
     <= CacheCap nat (StoreModel.impl nat) sample_cache
  /\ Forall (fun c => CacheLen nat (StoreModel.impl nat) c
                      <= CacheCap nat (StoreModel.impl nat) c
                      /\ CacheCap nat (StoreModel.impl nat) c = 3)
       (states nat (StoreModel.impl nat) sample_cache sample_ops).
Proof.
  apply (cache_len_within_cap nat (StoreModel.impl nat) (ListStore_laws nat)
           3 sample_cache sample_ops).
  vm_compute. reflexivity.
Defined.

End SpecializedAtSamples.

(** ** The resolver *)

Section ResolverFacts.

Import Proxy.

Variable C : Type.
Variable cache_get : C -> Msg -> result (C * option Msg * bool).
Variable cache_put : C -> Msg -> Msg -> result C.
Variable upstream : nat -> list exchange_io * list nat.

Lemma forward_once_result s q :
  forward_once C upstream s q
  = (mkServer (cache s) (rq s) (S (fanouts s)), fanout_result upstream (fanouts s)).
Proof.
  unfold forward_once, fanout_result. now destruct (upstream (fanouts s)).
Qed.

(** C6.  [forwardMessageAndCacheResponse] makes [n] fan-outs, with
    [1 <= n <= 3]: all but the last return nil, and the last returns nil
    only when it is the third.  When the last returns nil the result is nil
    and the cache is untouched; otherwise the response of the last fan-out
    is put into the cache and returned. *)
Theorem forward_and_cache_retries :
  forall (s : Server C) (q : Msg),
    exists (n : nat) (m : option Msg),
      (1 <= n <= 3)%nat
      /\ (forall i, (i < n - 1)%nat -> attempt C upstream s i = None)
      /\ attempt C upstream s (n - 1) = m
      /\ (m = None -> n = 3%nat)
      /\ forwardMessageAndCacheResponse C cache_put upstream s q
         = match m with
           | None => Ok (mkServer (cache s) (rq s) (fanouts s + n), None)
           | Some r =>
               c' <- cache_put (cache s) q r ;;
               Ok (mkServer c' (rq s) (fanouts s + n), Some r)
           end.
Proof.
  intros s q. unfold forwardMessageAndCacheResponse.
  assert (A0 : attempt C upstream s 0 = fanout_result upstream (fanouts s))
    by (unfold attempt; now rewrite Nat.add_0_r).
  assert (A1 : attempt C upstream s 1 = fanout_result upstream (S (fanouts s)))
    by (unfold attempt; now rewrite Nat.add_1_r).
  assert (A2 : attempt C upstream s 2 = fanout_result upstream (S (S (fanouts s))))
    by (unfold attempt; f_equal; lia).
  rewrite forward_once_result.
  destruct (fanout_result upstream (fanouts s)) as [r0|] eqn:E0.
  { exists 1%nat, (Some r0). cbn [retry cache rq fanouts Nat.sub].
    rewrite Nat.add_1_r. repeat split; try lia; try congruence. }
  cbn [retry]. rewrite forward_once_result. cbn [cache rq fanouts].
  destruct (fanout_result upstream (S (fanouts s))) as [r1|] eqn:E1.
  { exists 2%nat, (Some r1). cbn [retry cache rq fanouts Nat.sub].
    replace (fanouts s + 2)%nat with (S (S (fanouts s))) by lia.
    repeat split; try lia; try congruence.
    intros i Hi. replace i with 0%nat by lia. congruence. }
  cbn [retry]. rewrite forward_once_result. cbn [cache rq fanouts].
  exists 3%nat, (fanout_result upstream (S (S (fanouts s)))). cbn [Nat.sub].
  replace (fanouts s + 3)%nat with (S (S (S (fanouts s)))) by lia.
  repeat split; try lia; try congruence.
  - intros i Hi. assert (i = 0 \/ i = 1)%nat as [-> | ->] by lia; congruence.
  - destruct (fanout_result upstream (S (S (fanouts s)))); reflexivity.
Qed.

End ResolverFacts.

(** ** The fan-out *)

Section FanOutFacts.

Import Proxy Examples.

Lemma set_nth_Forall {X : Type} (P : X -> Prop) (l : list X) : forall i x,
  Forall P l -> P x -> Forall P (set_nth l i x).
Proof.
  induction l as [|y rest IH]; intros i x Hl Hx; simpl.
  - destruct i; constructor.
  - inversion Hl; subst. destruct i; constructor; auto.
Qed.

Lemma concat_Forall (Q : option Msg -> Prop) (pending : list (list (option Msg))) :
  Forall (Forall Q) pending -> Forall Q (List.concat pending).
Proof.
  induction 1 as [|l rest Hl _ IH]; simpl; [constructor|].
  apply Forall_app. now split.
Qed.

(** Whatever holds of every value the goroutines send holds of every value
    in the channel. *)
Lemma arrivals_Forall (Q : option Msg -> Prop) sched : forall pending,
  Forall (Forall Q) pending -> Forall Q (arrivals pending sched).
Proof.
  induction sched as [|i rest IH]; intros pending H; simpl.
  - now apply concat_Forall.
  - destruct (nth_error pending i) as [[|x xs]|] eqn:E; auto.
    assert (Hx : Forall Q (x :: xs)).
    { rewrite Forall_forall in H. apply H. eapply nth_error_In; eassumption. }
    inversion Hx; subst. constructor; [assumption|].
    apply IH. now apply set_nth_Forall.
Qed.

Lemma arrivals_nonempty sched : forall pending,
  Exists (fun l => l <> []) pending -> arrivals pending sched <> [].
Proof.
  induction sched as [|i rest IH]; intros pending H; simpl.
  - induction H as [l rest' Hl|l rest' _ IH'].
    + destruct l; [congruence|discriminate].
    + simpl. intros E. apply app_eq_nil in E. now apply IH'.
  - destruct (nth_error pending i) as [[|x xs]|]; auto. discriminate.
Qed.

Lemma receive_all_nil n : forall resps,
  Forall (fun x : option Msg => x = None) resps -> receive n resps = None.
Proof.
  induction n as [|n IH]; intros resps H; simpl; [reflexivity|].
  destruct H as [|x rest Hx Hrest]; [reflexivity|]. subst x. now apply IH.
Qed.

(** X19.  When the exchange of every pool returns nil, the fan-out returns nil,
    in whatever order the goroutines send. *)
Lemma fanout_all_nil ios sched :
  Forall (fun io => fst (fst (exchangeMessages io)) = None) ios ->
  forwardMessageAndGetResponse ios sched = None.
Proof.
  intros H. unfold forwardMessageAndGetResponse.
  apply receive_all_nil, arrivals_Forall.
  rewrite map_map. apply Forall_map.
  eapply Forall_impl; [|exact H]. intros io Hio. cbn beta.
  rewrite Hio. unfold sends.
  destruct (snd (fst (exchangeMessages io))); repeat constructor.
Qed.

(** X20.  When the exchange of every pool succeeds, the fan-out returns the
    response that entered the channel first. *)
Lemma fanout_all_answer ios sched :
  ios <> [] ->
  Forall (fun io => exists r, fst (exchangeMessages io) = (Some r, None)) ios ->
  exists r rest,
    arrivals
      (map (fun io => sends (fst (fst (exchangeMessages io)))
                        (snd (fst (exchangeMessages io)))) ios) sched
    = Some r :: rest
    /\ forwardMessageAndGetResponse ios sched = Some r.
Proof.
  intros Hne H. unfold forwardMessageAndGetResponse. rewrite map_map.
  set (pending := map _ ios).
  assert (Hp : Forall (fun l => exists r, l = [Some r]) pending).
  { apply Forall_map. eapply Forall_impl; [|exact H].
    intros io [r Hr]. cbn beta. rewrite Hr. now exists r. }
  assert (Hall : Forall (fun x : option Msg => x <> None) (arrivals pending sched)).
  { apply arrivals_Forall. eapply Forall_impl; [|exact Hp].
    intros l [r ->]. repeat constructor. discriminate. }
  assert (Hnon : arrivals pending sched <> []).
  { apply arrivals_nonempty. destruct ios as [|io ios']; [congruence|].
    inversion Hp as [|l ls [r Hr] _]; subst. apply Exists_cons_hd.
    rewrite Hr. discriminate. }
  destruct (arrivals pending sched) as [|[r|] rest]; [congruence| |].
  - exists r, rest. split; [reflexivity|].
    destruct ios; [congruence|]. reflexivity.
  - inversion Hall; congruence.
Qed.

(** C7 at the failing input.  Two pools: the exchange of the first fails
    and its goroutine sends before the second pool answers.  The failing
    goroutine sends nil twice, the loop takes two values, and the fan-out
    returns nil although the second pool delivered a response. *)
Theorem fanout_loses_the_answer :
  let r := response 300 in
  exchangeMessages failing_pool = (None, Some errWrite, Closed)
  /\ exchangeMessages (answering_pool r) = (Some r, None, Returned)
  /\ arrivals
       (map (fun io => sends (fst (fst (exchangeMessages io)))
                         (snd (fst (exchangeMessages io))))
          [failing_pool; answering_pool r])
       [0; 0; 1]%nat
     = [None; None; Some r]
  /\ forwardMessageAndGetResponse [failing_pool; answering_pool r] [0; 0; 1]%nat
     = None.
Proof. repeat split. Qed.

(** When the answering pool sends first, the same two pools yield [r]. *)
Example fanout_keeps_the_early_answer :
  forwardMessageAndGetResponse
    [failing_pool; answering_pool (response 300)] [1; 0; 0]%nat
  = Some (response 300).
Proof. reflexivity. Qed.

End FanOutFacts.

(** ** The coarse clock *)

Section ClockFacts.

Import Proxy.

Lemma clock_run_no_tick es : forall s,
  forallb (fun e => negb (is_tick e)) es = true ->
  currentTime (clock_run s es) = currentTime s.
Proof.
  unfold clock_run.
  induction es as [|e rest IH]; intros s H; [reflexivity|].
  cbn [forallb] in H. apply andb_prop in H. destruct H as [He Hrest].
  cbn [fold_left]. rewrite IH by assumption.
  destruct e; [reflexivity | discriminate].
Qed.

(** Before the first tick [now] reads the zero instant, whatever the time
    at which [Run] started. *)
Lemma now_before_first_tick es :
  forallb (fun e => negb (is_tick e)) es = true ->
  now (clock_run NewServer_clock es) = zeroTime.
Proof. intros H. unfold now. now rewrite clock_run_no_tick. Qed.

Lemma now_after_tick es tm :
  now (clock_run NewServer_clock (es ++ [Tick tm])) = tm.
Proof. unfold now, clock_run. rewrite fold_left_app. reflexivity. Qed.

(** C8 at the failing input.  The server starts at the instant 1000 (any
    instant but the zero one will do); a read of the clock before the first
    tick returns the zero instant, not the start time, which sits in
    [startTime]. *)
Theorem now_before_tick_is_zero_time :
  let s := clock_run NewServer_clock [RunStarts 1000] in
  now s = zeroTime /\ startTime s = 1000 /\ now s <> startTime s.
Proof. repeat split. discriminate. Qed.

End ClockFacts.

(** ** The connector *)

Section ConnectorFacts.

Import Proxy.

Lemma Split_without_separator sep s :
  contains sep s = false -> Split sep s = [s].
Proof.
  induction s as [|ch rest IH]; intros H; simpl in *; [reflexivity|].
  apply orb_false_iff in H. destruct H as [Hch Hrest].
  rewrite Hch, (IH Hrest). reflexivity.
Qed.

Lemma Split_at_separator sep s0 s1 :
  contains sep s0 = false ->
  Split sep (s0 ++ String sep s1) = s0 :: Split sep s1.
Proof.
  induction s0 as [|ch rest IH]; intros H; simpl in *.
  - now rewrite Ascii.eqb_refl.
  - apply orb_false_iff in H. destruct H as [Hch Hrest].
    rewrite Hch, (IH Hrest). reflexivity.
Qed.

Variable Conn : Type.
Variable SplitHostPort : string -> (string * string) + string.
Variable dial : string -> tlsConfig -> Conn + string.

(** C9, amended.  For an address [c0 @ c1] with a single [@]: when [c0]
    splits into a server name and a port, the connector dials [c1 : port]
    with the minimum version TLS 1.2 and the server name of [c0], and
    reports the error of a failed dial; when [c0] does not split, it
    reports that error and dials nothing. *)
Theorem connector_dials_ip_with_servername :
  forall (c0 c1 : string),
    contains at_sign c0 = false ->
    contains at_sign c1 = false ->
    connector Conn SplitHostPort dial (c0 ++ String at_sign c1)
    = match SplitHostPort c0 with
      | inr err => Failure err
      | inl (servername, port) =>
          match dial (c1 ++ ":" ++ port) (mkTlsConfig VersionTLS12 servername) with
          | inr err => Failure err
          | inl conn => Connected conn
          end
      end.
Proof.
  intros c0 c1 H0 H1. unfold connector.
  rewrite (Split_at_separator _ _ _ H0), (Split_without_separator _ _ H1).
  destruct (SplitHostPort c0) as [[servername port]|err]; reflexivity.
Qed.

(** Without an [@] the address is dialled as it stands, with no server
    name set; a failed dial is reported in this case too. *)
Lemma connector_plain_address addr :
  contains at_sign addr = false ->
  connector Conn SplitHostPort dial addr
  = match dial addr (mkTlsConfig VersionTLS12 EmptyString) with
    | inr err => Failure err
    | inl conn => Connected conn
    end.
Proof.
  intros H. unfold connector. rewrite (Split_without_separator _ _ H).
  destruct addr as [|ch [|ch' rest]]; reflexivity.
Qed.

End ConnectorFacts.

Section ConnectorAtSamples.

Import Proxy NetModel.

Lemma connector_dials_ip_with_servername_witness :
  connector (string * tlsConfig) SplitHostPort dial_ok
    ("one.one.one.one:853" ++ String at_sign "1.1.1.1")
  = match SplitHostPort "one.one.one.one:853" with
    | inr err => Failure err
    | inl (servername, port) =>
        match dial_ok ("1.1.1.1" ++ ":" ++ port)
                (mkTlsConfig VersionTLS12 servername) with
        | inr err => Failure err
        | inl conn => Connected conn
        end
    end.
Proof.
  apply (connector_dials_ip_with_servername (string * tlsConfig) SplitHostPort
           dial_ok "one.one.one.one:853" "1.1.1.1"); reflexivity.
Defined.

Example connector_default_upstream :
  connector (string * tlsConfig) SplitHostPort dial_ok "one.one.one.one:853@1.1.1.1"
  = Connected ("1.1.1.1:853"%string, mkTlsConfig VersionTLS12 "one.one.one.one").
Proof. reflexivity. Qed.

Example connector_reports_failed_dial :
  connector (string * tlsConfig) SplitHostPort dial_refused "dns.google:853@8.8.8.8"
  = Failure "connection refused".
Proof. reflexivity. Qed.

(** C9 as stated fails: with two [@] the whole address is dialled and no
    server name is set; and when the part after the [@] carries a port of
    its own, the port of the first part is appended to it all the same. *)
Lemma connector_counterexample :
  contains at_sign "a.example:853@192.0.2.1@192.0.2.2" = true
  /\ connector (string * tlsConfig) SplitHostPort dial_ok
       "a.example:853@192.0.2.1@192.0.2.2"
     = Connected ("a.example:853@192.0.2.1@192.0.2.2"%string,
                  mkTlsConfig VersionTLS12 EmptyString)
  /\ connector (string * tlsConfig) SplitHostPort dial_ok
       "dns.google:853@8.8.8.8:853"
     = Connected ("8.8.8.8:853:853"%string, mkTlsConfig VersionTLS12 "dns.google").
Proof. repeat split. Qed.

End ConnectorAtSamples.

(** ** Messages without a question *)

Section QuestionFacts.

Import DnsCache Proxy.

Variable question_String : Question -> string.
Variable A : ArcImpl.
Variable C : Type.
Variable cache_get : C -> Msg -> result (C * option Msg * bool).
Variable cache_put : C -> Msg -> Msg -> result C.
Variable upstream : nat -> list exchange_io * list nat.

(** C10.  On a message without a question the fingerprint is an index out
    of range, and so are [Get], [Put] with such a query, and [ServeDNS];
    on a message with a question the fingerprint is defined, and [Get] and
    [Put] return. *)
Theorem first_question_is_required :
  forall (q : Msg),
    (Questions q = [] ->
     key question_String q = Panic index_out_of_range
     /\ (forall (ca : Cache A) now since,
           Get question_String ca q now since = Panic index_out_of_range)
     /\ (forall (ca : Cache A) v t0,
           Put question_String ca q v t0 = Panic index_out_of_range)
     /\ (forall (s : Server C),
           ServeDNS C cache_get cache_put upstream s q
           = Panic index_out_of_range))
    /\ (Questions q <> [] ->
        (exists k, key question_String q = Ok k)
        /\ (forall (ca : Cache A) now since,
              exists r, Get question_String ca q now since = Ok r)
        /\ (forall (ca : Cache A) v t0,
              exists c1, Put question_String ca q v t0 = Ok c1)).
Proof.
  intros q. split.
  - intros Hq. pose proof (key_panics question_String q Hq) as Hk.
    split; [assumption|]. split; [|split].
    + intros ca now since. unfold DnsCache.Get. now rewrite Hk.
    + intros ca v t0. unfold DnsCache.Put. rewrite Hk.
      now destruct (Answer v).
    + intros s. unfold ServeDNS. now rewrite Hq.
  - intros Hq. destruct (key_defined question_String q Hq) as [k Hk].
    split; [eauto|]. split.
    + intros ca now since. unfold DnsCache.Get. rewrite Hk. cbn [bind].
      destruct (arc_Get A (c ca) k) as [a' [cv|]]; [|eauto].
      destruct (Before (exp cv) now); eauto.
    + intros ca v t0. unfold DnsCache.Put. rewrite Hk.
      destruct (Answer v); cbn [bind]; eauto.
Qed.

End QuestionFacts.

Example get_without_question_panics :
  DnsCache.Get Examples.name_String Examples.cache0 Examples.no_question 0
    (fun _ => 0)
  = Panic index_out_of_range.
Proof. reflexivity. Qed.

(** ** The expiring store *)

Section Store2Facts.

Import Store2.

Lemma set_nth_length {X : Type} (l : list X) : forall i x,
  List.length (Proxy.set_nth l i x) = List.length l.
Proof.
  induction l as [|y rest IH]; intros i x; simpl; [reflexivity|].
  destruct i; simpl; [reflexivity|]. now rewrite IH.
Qed.

Lemma nth_error_set_nth {X : Type} (l : list X) : forall i x p,
  nth_error (Proxy.set_nth l i x) p
  = if ((p =? i) && (i <? List.length l))%nat then Some x else nth_error l p.
Proof.
  induction l as [|y rest IH]; intros i x p; simpl.
  - destruct p; simpl; now rewrite andb_false_r.
  - destruct i as [|i], p as [|p]; simpl; try reflexivity.
    rewrite IH. reflexivity.
Qed.

Lemma at_index_Some l i x :
  nth_error l i = Some x -> at_index l i = Ok x.
Proof. unfold at_index. now intros ->. Qed.

Lemma at_index_None l i :
  (List.length l <= i)%nat -> at_index l i = Panic index_out_of_range.
Proof.
  intros H. unfold at_index. apply nth_error_None in H. now rewrite H.
Qed.

Lemma nth_error_in_range {X : Type} (l : list X) i :
  (i < List.length l)%nat -> exists x, nth_error l i = Some x.
Proof.
  intros H. destruct (nth_error l i) eqn:E; [eauto|].
  apply nth_error_None in E. lia.
Qed.

Lemma rearranged_refl c : consistent c -> rearranged c c.
Proof. intros H. repeat split; try reflexivity; apply H. Qed.

Lemma rearranged_trans c1 c2 c3 :
  rearranged c1 c2 -> rearranged c2 c3 -> rearranged c1 c3.
Proof.
  intros (_ & L1 & C1 & T1 & E1) (H2 & L2 & C2 & T2 & E2).
  split; [exact H2|]. split; [congruence|]. split; [congruence|].
  split; [congruence|]. intros k. now rewrite E2.
Qed.

Lemma Less_defined c i j :
  (i < Len c)%nat -> (j < Len c)%nat -> exists b, Less c i j = Ok b.
Proof.
  unfold Len, Less. intros Hi Hj.
  destruct (nth_error_in_range _ _ Hi) as [x Hx].
  destruct (nth_error_in_range _ _ Hj) as [y Hy].
  rewrite (at_index_Some _ _ _ Hx), (at_index_Some _ _ _ Hy). simpl. eauto.
Qed.

(** What [Swap] leaves behind, position by position. *)
Lemma Swap_spec c i j xi xj :
  nth_error (pq c) i = Some xi ->
  nth_error (pq c) j = Some xj ->
  exists c',
    Swap c i j = Ok c'
    /\ List.length (pq c') = List.length (pq c)
    /\ pq_cap c' = pq_cap c
    /\ ct c' = ct c
    /\ m c' = m_set (m_set (m c) (key xj) i) (key xi) j
    /\ forall p,
         nth_error (pq c') p
         = if (p =? j)%nat then Some (with_index xi (Z.of_nat j))
           else if (p =? i)%nat then Some (with_index xj (Z.of_nat i))
           else nth_error (pq c) p.
Proof.
  intros Hi Hj.
  assert (Li : (i < List.length (pq c))%nat)
    by (apply nth_error_Some; congruence).
  assert (Lj : (j < List.length (pq c))%nat)
    by (apply nth_error_Some; congruence).
  unfold Swap.
  rewrite (at_index_Some _ _ _ Hj), (at_index_Some _ _ _ Hi). cbn [bind].
  set (pq1 := Proxy.set_nth (Proxy.set_nth (pq c) i xj) j xi).
  assert (L1 : List.length pq1 = List.length (pq c))
    by (unfold pq1; now rewrite !set_nth_length).
  assert (N1 : forall p, nth_error pq1 p
             = if (p =? j)%nat then Some xi
               else if (p =? i)%nat then Some xj else nth_error (pq c) p).
  { intros p. unfold pq1. rewrite !nth_error_set_nth, !set_nth_length.
    apply Nat.ltb_lt in Li, Lj. rewrite Li, Lj, !andb_true_r. reflexivity. }
  assert (Hyi : nth_error pq1 i = Some (if (i =? j)%nat then xi else xj)).
  { rewrite N1, Nat.eqb_refl. now destruct (i =? j)%nat. }
  assert (Hyj : nth_error pq1 j = Some xi) by (now rewrite N1, Nat.eqb_refl).
  rewrite (at_index_Some _ _ _ Hyi), (at_index_Some _ _ _ Hyj). cbn [bind].
  set (yi := if (i =? j)%nat then xi else xj) in *.
  set (pq2 := Proxy.set_nth (Proxy.set_nth pq1 i (with_index yi (Z.of_nat i)))
                j (with_index xi (Z.of_nat j))).
  assert (L2 : List.length pq2 = List.length (pq c))
    by (unfold pq2; now rewrite !set_nth_length).
  assert (N2 : forall p, nth_error pq2 p
             = if (p =? j)%nat then Some (with_index xi (Z.of_nat j))
               else if (p =? i)%nat then Some (with_index xj (Z.of_nat i))
               else nth_error (pq c) p).
  { intros p. unfold pq2. rewrite !nth_error_set_nth, !set_nth_length, L1, N1.
    apply Nat.ltb_lt in Li, Lj. rewrite Li, Lj, !andb_true_r.
    destruct (Nat.eqb_spec p j) as [->|Hpj]; [reflexivity|].
    destruct (Nat.eqb_spec p i) as [->|Hpi]; [|reflexivity].
    unfold yi. destruct (Nat.eqb_spec i j); [congruence|reflexivity]. }
  assert (Hzi : nth_error pq2 i
                = Some (if (i =? j)%nat then with_index xi (Z.of_nat j)
                        else with_index xj (Z.of_nat i))).
  { rewrite N2, Nat.eqb_refl. now destruct (i =? j)%nat. }
  assert (Hzj : nth_error pq2 j = Some (with_index xi (Z.of_nat j)))
    by (now rewrite N2, Nat.eqb_refl).
  rewrite (at_index_Some _ _ _ Hzi), (at_index_Some _ _ _ Hzj). cbn [bind].
  eexists. split; [reflexivity|]. cbn [pq pq_cap ct m].
  repeat split; try assumption.
  destruct (Nat.eqb_spec i j) as [->|Hij]; [|reflexivity].
  assert (xi = xj) by congruence. subst xj. reflexivity.
Qed.

Lemma Swap_rearranged c i j :
  consistent c -> (i < Len c)%nat -> (j < Len c)%nat ->
  exists c', Swap c i j = Ok c' /\ rearranged c c'.
Proof.
  intros [Hpos Hmap] Li Lj. unfold Len in *.
  destruct (nth_error_in_range _ _ Li) as [xi Hi].
  destruct (nth_error_in_range _ _ Lj) as [xj Hj].
  destruct (Swap_spec c i j xi xj Hi Hj) as (c' & Hs & HL & HC & HT & Hm & Hn).
  exists c'. split; [assumption|].
  pose proof (Hpos _ _ Hi) as Mi. pose proof (Hpos _ _ Hj) as Mj.
  assert (Hkeys : key xi = key xj -> i = j) by (intros E; congruence).
  assert (Hm' : forall k, m c' k
            = if String.eqb k (key xi) then Some j
              else if String.eqb k (key xj) then Some i else m c k).
  { intros k. now rewrite Hm. }
  assert (Hother : forall k q x, m c k = Some q -> nth_error (pq c) q = Some x ->
            key x = k -> k <> key xi -> k <> key xj ->
            nth_error (pq c') q = Some x).
  { intros k q x Hq Hx Hk Hni Hnj. rewrite Hn.
    destruct (Nat.eqb_spec q j) as [->|_]; [congruence|].
    destruct (Nat.eqb_spec q i) as [->|_]; [congruence|]. assumption. }
  split; [split|].
  - intros p x Hx. rewrite Hn in Hx. rewrite Hm'.
    destruct (Nat.eqb_spec p j) as [->|Hpj].
    + injection Hx as <-. cbn [key with_index]. now rewrite String.eqb_refl.
    + destruct (Nat.eqb_spec p i) as [->|Hpi].
      * injection Hx as <-. cbn [key with_index].
        destruct (String.eqb_spec (key xj) (key xi)) as [E|_].
        { symmetry in E. apply Hkeys in E. congruence. }
        now rewrite String.eqb_refl.
      * pose proof (Hpos _ _ Hx) as Mp.
        destruct (String.eqb_spec (key x) (key xi)) as [E|_]; [congruence|].
        destruct (String.eqb_spec (key x) (key xj)) as [E|_]; [congruence|].
        assumption.
  - intros k q Hq. rewrite Hm' in Hq.
    destruct (String.eqb_spec k (key xi)) as [->|Hki].
    + injection Hq as <-. exists (with_index xi (Z.of_nat j)).
      rewrite Hn, Nat.eqb_refl. split; reflexivity.
    + destruct (String.eqb_spec k (key xj)) as [->|Hkj].
      * injection Hq as <-. exists (with_index xj (Z.of_nat i)).
        rewrite Hn, Nat.eqb_refl.
        destruct (Nat.eqb_spec i j) as [E|_]; [|split; reflexivity].
        subst j. congruence.
      * destruct (Hmap _ _ Hq) as (x & Hx & Hk). exists x.
        split; [|assumption]. eapply Hother; eassumption.
  - split; [assumption|]. split; [assumption|]. split; [assumption|].
    intros k. unfold entry. rewrite Hm'.
    destruct (String.eqb_spec k (key xi)) as [->|Hki].
    + rewrite Hn, Nat.eqb_refl, Mi, Hi. reflexivity.
    + destruct (String.eqb_spec k (key xj)) as [->|Hkj].
      * rewrite Hn, Nat.eqb_refl, Mj, Hj.
        destruct (Nat.eqb_spec i j) as [E|_]; [|reflexivity].
        subst j. congruence.
      * destruct (m c k) as [q|] eqn:Hq; [|reflexivity].
        destruct (Hmap _ _ Hq) as (x & Hx & Hk).
        now rewrite (Hother _ _ _ Hq Hx Hk Hki Hkj), Hx.
Qed.

(** [Swap] touches no other position. *)
Lemma Swap_elsewhere c i j c' :
  (i < Len c)%nat -> (j < Len c)%nat -> Swap c i j = Ok c' ->
  forall p, p <> i -> p <> j -> nth_error (pq c') p = nth_error (pq c) p.
Proof.
  unfold Len. intros Li Lj Hs p Hpi Hpj.
  destruct (nth_error_in_range _ _ Li) as [xi Hi].
  destruct (nth_error_in_range _ _ Lj) as [xj Hj].
  destruct (Swap_spec c i j xi xj Hi Hj) as (c2 & Hs2 & _ & _ & _ & _ & Hn).
  assert (c2 = c') by congruence. subst c2. rewrite Hn.
  destruct (Nat.eqb_spec p j); [congruence|].
  destruct (Nat.eqb_spec p i); [congruence|]. reflexivity.
Qed.

(** The loops of [up] and [down] end by themselves: more fuel changes
    nothing. *)
Lemma up_loop_fuel : forall f1 f2 c j,
  (j < f1)%nat -> (j < f2)%nat -> up_loop f1 c j = up_loop f2 c j.
Proof.
  induction f1 as [|f1 IH]; intros f2 c j H1 H2; [lia|].
  destruct f2 as [|f2]; [lia|]. cbn [up_loop].
  destruct (Nat.eqb_spec ((j - 1) / 2) j) as [|Hne]; [reflexivity|].
  destruct (Less c j ((j - 1) / 2)) as [b|]; [|reflexivity]. cbn [bind].
  destruct (negb b); [reflexivity|].
  destruct (Swap c ((j - 1) / 2) j) as [c'|]; [|reflexivity]. cbn [bind].
  assert ((j - 1) / 2 <= j - 1)%nat by (apply Nat.Div0.div_le_upper_bound; lia).
  apply IH; lia.
Qed.

Lemma down_loop_fuel : forall f1 f2 c i0 i n,
  (n - i <= f1)%nat -> (n - i <= f2)%nat ->
  down_loop f1 c i0 i n = down_loop f2 c i0 i n.
Proof.
  induction f1 as [|f1 IH]; intros f2 c i0 i n H1 H2.
  - destruct f2 as [|f2]; [reflexivity|]. cbn [down_loop].
    destruct (Nat.leb_spec n (2 * i + 1)); [reflexivity|lia].
  - destruct f2 as [|f2]; cbn [down_loop].
    + destruct (Nat.leb_spec n (2 * i + 1)); [reflexivity|lia].
    + destruct (Nat.leb_spec n (2 * i + 1)); [reflexivity|].
      destruct (if (2 * i + 1 + 1 <? n)%nat
                then Less c (2 * i + 1 + 1) (2 * i + 1) else Ok false)
        as [b2|]; [|reflexivity]. cbn [bind].
      destruct (Less c (if b2 then (2 * i + 1 + 1)%nat else (2 * i + 1)%nat) i)
        as [b|]; [|reflexivity]. cbn [bind].
      destruct (negb b); [reflexivity|].
      destruct (Swap c i (if b2 then (2 * i + 1 + 1)%nat else (2 * i + 1)%nat))
        as [c'|]; [|reflexivity]. cbn [bind].
      apply IH; destruct b2; lia.
Qed.

Lemma up_loop_rearranged : forall fuel c j,
  consistent c -> (j < Len c)%nat ->
  exists c', up_loop fuel c j = Ok c' /\ rearranged c c'.
Proof.
  induction fuel as [|fuel IH]; intros c j Hc Lj; cbn [up_loop].
  - exists c. split; [reflexivity|now apply rearranged_refl].
  - destruct (Nat.eqb_spec ((j - 1) / 2) j) as [|Hne].
    { exists c. split; [reflexivity|now apply rearranged_refl]. }
    assert (Hi : ((j - 1) / 2 < Len c)%nat).
    { assert ((j - 1) / 2 <= j - 1)%nat by (apply Nat.Div0.div_le_upper_bound; lia).
      lia. }
    destruct (Less_defined c j _ Lj Hi) as [b ->]. cbn [bind].
    destruct (negb b).
    { exists c. split; [reflexivity|now apply rearranged_refl]. }
    destruct (Swap_rearranged c _ j Hc Hi Lj) as (c1 & -> & R1). cbn [bind].
    destruct (IH c1 ((j - 1) / 2)%nat) as (c2 & -> & R2).
    + apply R1.
    + unfold Len in *. destruct R1 as (_ & -> & _). assumption.
    + exists c2. split; [reflexivity|]. eapply rearranged_trans; eassumption.
Qed.

(** [down] rearranges the items below position [n] and leaves the others
    where they are. *)
Lemma down_loop_rearranged : forall fuel c i0 i n,
  consistent c -> (n <= Len c)%nat ->
  exists c' b,
    down_loop fuel c i0 i n = Ok (c', b)
    /\ rearranged c c'
    /\ forall p, (n <= p)%nat -> nth_error (pq c') p = nth_error (pq c) p.
Proof.
  induction fuel as [|fuel IH]; intros c i0 i n Hc Hn; cbn [down_loop].
  - exists c, (i0 <? i)%nat. split; [reflexivity|].
    split; [now apply rearranged_refl|reflexivity].
  - destruct (Nat.leb_spec n (2 * i + 1)) as [|Hj1].
    { exists c, (i0 <? i)%nat. split; [reflexivity|].
      split; [now apply rearranged_refl|reflexivity]. }
    assert (Hb2 : exists b2,
               (if (2 * i + 1 + 1 <? n)%nat
                then Less c (2 * i + 1 + 1) (2 * i + 1) else Ok false) = Ok b2
               /\ (b2 = true -> (2 * i + 1 + 1 < n)%nat)).
    { destruct (Nat.ltb_spec (2 * i + 1 + 1) n) as [H2|H2].
      - destruct (Less_defined c (2 * i + 1 + 1) (2 * i + 1)) as [b2 Hb2];
          [lia|lia|]. exists b2. now split.
      - exists false. split; [reflexivity|discriminate]. }
    destruct Hb2 as (b2 & -> & Hb2). cbn [bind].
    set (j := if b2 then (2 * i + 1 + 1)%nat else (2 * i + 1)%nat).
    assert (Hj : (i < j /\ j < n)%nat).
    { unfold j. destruct b2; [specialize (Hb2 eq_refl)|]; lia. }
    destruct (Less_defined c j i) as [b ->]; [lia|lia|]. cbn [bind].
    destruct (negb b).
    { exists c, (i0 <? i)%nat. split; [reflexivity|].
      split; [now apply rearranged_refl|reflexivity]. }
    destruct (Swap_rearranged c i j Hc) as (c1 & Hs & R1); [lia|lia|].
    rewrite Hs. cbn [bind].
    assert (L1 : Len c1 = Len c) by (unfold Len; apply R1).
    destruct (IH c1 i0 j n) as (c2 & b' & -> & R2 & E2); [apply R1|lia|].
    exists c2, b'. split; [reflexivity|].
    split; [eapply rearranged_trans; eassumption|].
    intros p Hp. rewrite (E2 p Hp).
    apply (Swap_elsewhere c i j c1); try assumption; lia.
Qed.

Lemma up_rearranged c j :
  consistent c -> (j < Len c)%nat ->
  exists c', up c j = Ok c' /\ rearranged c c'.
Proof. apply up_loop_rearranged. Qed.

Lemma down_rearranged c i0 n :
  consistent c -> (n <= Len c)%nat ->
  exists c' b,
    down c i0 n = Ok (c', b)
    /\ rearranged c c'
    /\ forall p, (n <= p)%nat -> nth_error (pq c') p = nth_error (pq c) p.
Proof. apply down_loop_rearranged. Qed.

Lemma heap_Fix_rearranged c i :
  consistent c -> (i < Len c)%nat ->
  exists c', heap_Fix c i = Ok c' /\ rearranged c c'.
Proof.
  intros Hc Hi. unfold heap_Fix.
  destruct (down_rearranged c i (Len c) Hc (Nat.le_refl _))
    as (c1 & b & -> & R1 & _). cbn [bind fst snd].
  destruct b; cbn [negb].
  - exists c1. now split.
  - destruct (up_rearranged c1 i) as (c2 & -> & R2).
    + apply R1.
    + unfold Len in *. destruct R1 as (_ & -> & _). assumption.
    + exists c2. split; [reflexivity|]. eapply rearranged_trans; eassumption.
Qed.


Lemma consistent_in_range c k i :
  consistent c -> m c k = Some i -> (i < Len c)%nat.
Proof.
  intros [_ Hmap] H. destruct (Hmap _ _ H) as (x & Hx & _).
  unfold Len. apply nth_error_Some. congruence.
Qed.

(** On a store whose map and slice agree [get] returns the value of the
    entry, or nil when there is none. *)
Lemma get_entry c k :
  consistent c ->
  get c k = Ok (match entry c k with
                | Some (v, _, _) => v
                | None => None
                end).
Proof.
  intros [_ Hmap]. unfold get, entry.
  destruct (m c k) as [i|] eqn:E; [|reflexivity].
  destruct (Hmap _ _ E) as (x & Hx & _).
  now rewrite (at_index_Some _ _ _ Hx), Hx.
Qed.

Lemma Push_spec c x :
  consistent c -> m c (key x) = None ->
  consistent (Push c x)
  /\ List.length (pq (Push c x)) = S (List.length (pq c))
  /\ pq_cap (Push c x) = Nat.max (pq_cap c) (S (List.length (pq c)))
  /\ ct (Push c x) = ct c
  /\ forall k, entry (Push c x) k
               = if String.eqb k (key x) then Some (value x, ttl x, t x)
                 else entry c k.
Proof.
  intros Hc Hfresh. pose proof Hc as [Hpos Hmap].
  unfold Push. cbn [pq pq_cap ct m key with_index].
  set (n := List.length (pq c)).
  set (item := with_index x (Z.of_nat n)).
  assert (Hlast : nth_error (pq c ++ [item]) n = Some item).
  { rewrite nth_error_app2 by (unfold n; lia). unfold n.
    now rewrite Nat.sub_diag. }
  split; [split|].
  - intros p y Hy. cbn [pq m] in *. unfold m_set.
    rewrite nth_error_app in Hy.
    destruct (Nat.ltb_spec p (List.length (pq c))) as [Hp|Hp].
    + pose proof (Hpos _ _ Hy) as My.
      destruct (String.eqb_spec (key y) (key x)) as [E|_]; [congruence|].
      assumption.
    + destruct (p - List.length (pq c))%nat as [|d] eqn:Ed.
      * injection Hy as <-. cbn [key with_index item].
        rewrite String.eqb_refl. f_equal. unfold n. lia.
      * destruct d; discriminate.
  - intros k q Hq. cbn [pq m] in *. unfold m_set in Hq.
    destruct (String.eqb_spec k (key x)) as [->|_].
    + injection Hq as <-. exists item. split; [assumption|reflexivity].
    + destruct (Hmap _ _ Hq) as (y & Hy & Hk). exists y. split; [|assumption].
      rewrite nth_error_app1; [assumption|].
      apply nth_error_Some. congruence.
  - rewrite length_app. cbn [List.length]. split; [lia|].
    split; [reflexivity|]. split; [reflexivity|].
    intros k. unfold entry. cbn [pq m]. unfold m_set.
    destruct (String.eqb_spec k (key x)) as [->|_].
    + now rewrite Hlast.
    + destruct (m c k) as [q|] eqn:Hq; [|reflexivity].
      rewrite nth_error_app1; [reflexivity|].
      apply (consistent_in_range c k q Hc Hq).
Qed.

Lemma Pop_spec c n last :
  consistent c ->
  List.length (pq c) = S n ->
  nth_error (pq c) n = Some last ->
  exists c',
    Pop c = Ok (c', with_index last (-1))
    /\ consistent c'
    /\ List.length (pq c') = n
    /\ pq_cap c' = pq_cap c
    /\ ct c' = ct c
    /\ forall k, entry c' k
                 = if String.eqb k (key last) then None else entry c k.
Proof.
  intros Hc HL Hlast. pose proof Hc as [Hpos Hmap].
  unfold Pop. rewrite HL, (at_index_Some _ _ _ Hlast). cbn [bind].
  eexists. split; [reflexivity|]. cbn [pq pq_cap ct m].
  split; [split|].
  - intros p y Hy. cbn [pq m] in *. rewrite nth_error_firstn in Hy.
    unfold m_delete.
    destruct (Nat.ltb_spec p n) as [Hp|_]; [|discriminate].
    pose proof (Hpos _ _ Hy) as My. pose proof (Hpos _ _ Hlast) as Ml.
    destruct (String.eqb_spec (key y) (key last)) as [E|_]; [|assumption].
    rewrite E in My. assert (p = n) by congruence. lia.
  - intros k q Hq. cbn [pq m] in *. unfold m_delete in Hq.
    destruct (String.eqb_spec k (key last)) as [|Hk]; [discriminate|].
    destruct (Hmap _ _ Hq) as (y & Hy & Ey). exists y. split; [|assumption].
    rewrite nth_error_firstn.
    assert (q < S n)%nat by (rewrite <- HL; apply nth_error_Some; congruence).
    destruct (Nat.ltb_spec q n) as [_|Hq']; [assumption|].
    assert (q = n) by lia. subst q. congruence.
  - rewrite length_firstn, HL. split; [lia|].
    split; [reflexivity|]. split; [reflexivity|].
    intros k. unfold entry. cbn [pq m]. unfold m_delete.
    destruct (String.eqb_spec k (key last)) as [|Hk]; [reflexivity|].
    destruct (m c k) as [q|] eqn:Hq; [|reflexivity].
    destruct (Hmap _ _ Hq) as (y & Hy & Ey).
    rewrite nth_error_firstn.
    assert (q < S n)%nat by (rewrite <- HL; apply nth_error_Some; congruence).
    destruct (Nat.ltb_spec q n) as [_|Hq']; [reflexivity|].
    assert (q = n) by lia. subst q. congruence.
Qed.

Lemma heap_Push_spec c x :
  consistent c -> m c (key x) = None ->
  exists c',
    heap_Push c x = Ok c'
    /\ consistent c'
    /\ List.length (pq c') = S (List.length (pq c))
    /\ pq_cap c' = Nat.max (pq_cap c) (S (List.length (pq c)))
    /\ ct c' = ct c
    /\ forall k, entry c' k
                 = if String.eqb k (key x) then Some (value x, ttl x, t x)
                   else entry c k.
Proof.
  intros Hc Hfresh.
  destruct (Push_spec c x Hc Hfresh) as (H1 & L1 & C1 & T1 & E1).
  unfold heap_Push.
  destruct (up_rearranged (Push c x) (Len (Push c x) - 1) H1)
    as (c' & -> & H2 & L2 & C2 & T2 & E2).
  { unfold Len. lia. }
  exists c'. split; [reflexivity|]. split; [assumption|].
  split; [congruence|]. split; [congruence|]. split; [congruence|].
  intros k. now rewrite E2.
Qed.

(** [heap.Pop] removes the item at position 0 and keeps the others. *)
Lemma heap_Pop_spec c root :
  consistent c ->
  nth_error (pq c) 0 = Some root ->
  exists c',
    heap_Pop c = Ok (c', with_index root (-1))
    /\ consistent c'
    /\ S (List.length (pq c')) = List.length (pq c)
    /\ pq_cap c' = pq_cap c
    /\ ct c' = ct c
    /\ forall k, entry c' k
                 = if String.eqb k (key root) then None else entry c k.
Proof.
  intros Hc Hroot. unfold heap_Pop, Len.
  destruct (List.length (pq c)) as [|n] eqn:HL.
  { destruct (pq c); discriminate. }
  assert (Ln : (n < List.length (pq c))%nat) by lia.
  assert (L0 : (0 < List.length (pq c))%nat) by lia.
  destruct (nth_error_in_range _ _ Ln) as [xn Hxn].
  destruct (Swap_spec c 0 n root xn Hroot Hxn) as (c1 & Hs & L1 & C1 & T1 & _ & N1).
  destruct (Swap_rearranged c 0 n Hc L0 Ln) as (c1' & Hs' & R1).
  assert (c1' = c1) by congruence. subst c1'. rewrite Hs. cbn [bind].
  destruct (down_rearranged c1 0 n) as (c2 & b & -> & R2 & E2).
  { apply R1. }
  { unfold Len. lia. }
  cbn [bind fst].
  assert (Hlast : nth_error (pq c2) n = Some (with_index root (Z.of_nat n))).
  { rewrite E2 by lia. now rewrite N1, Nat.eqb_refl. }
  assert (L2 : List.length (pq c2) = S n).
  { destruct R2 as (_ & -> & _). congruence. }
  destruct (Pop_spec c2 n (with_index root (Z.of_nat n)) (proj1 R2) L2 Hlast)
    as (c3 & -> & H3 & L3 & C3 & T3 & E3).
  exists c3. split; [reflexivity|]. split; [assumption|].
  destruct R1 as (_ & _ & C1' & T1' & E1), R2 as (_ & _ & C2 & T2 & E2').
  split; [lia|]. split; [congruence|]. split; [congruence|].
  intros k. rewrite E3. cbn [key with_index].
  destruct (String.eqb k (key root)); [reflexivity|]. now rewrite E2'.
Qed.

Lemma entry_None c k :
  consistent c -> entry c k = None -> m c k = None.
Proof.
  intros [_ Hmap] H. unfold entry in H.
  destruct (m c k) as [i|] eqn:E; [|reflexivity].
  destruct (Hmap _ _ E) as (x & Hx & _). rewrite Hx in H. discriminate.
Qed.

(** What [put] does, case by case: the key is there; it is new and the
    slice is full; it is new and the slice has room. *)
Lemma put_spec c k v ttl0 now :
  consistent c ->
  (1 <= pq_cap c)%nat ->
  (Len c <= pq_cap c)%nat ->
  exists c',
    put c k v ttl0 now = Ok c'
    /\ consistent c'
    /\ pq_cap c' = pq_cap c
    /\ ct c' = now
    /\ match entry c k with
       | Some (_, _, t0) =>
           Len c' = Len c
           /\ forall k', entry c' k'
                         = if String.eqb k' k then Some (v, ttl0, t0)
                           else entry c k'
       | None =>
           if (Len c =? pq_cap c)%nat then
             exists root,
               nth_error (pq c) 0 = Some root
               /\ Len c' = Len c
               /\ forall k', entry c' k'
                             = if String.eqb k' k then Some (v, ttl0, 0)
                               else if String.eqb k' (key root) then None
                               else entry c k'
           else
             Len c' = S (Len c)
             /\ forall k', entry c' k'
                           = if String.eqb k' k then Some (v, ttl0, 0)
                             else entry c k'
       end.
Proof.
  intros Hc Hcap Hlen. pose proof Hc as [Hpos Hmap].
  unfold put. cbn [pq pq_cap m ct]. unfold entry at 1.
  destruct (m c k) as [i|] eqn:Hk.
  - destruct (Hmap _ _ Hk) as (x & Hx & Hkx). rewrite Hx. cbn [option_map].
    rewrite (at_index_Some _ _ _ Hx). cbn [bind].
    assert (Li : (i < List.length (pq c))%nat)
      by (apply nth_error_Some; congruence).
    set (x1 := mkCacheItem (key x) v (ttl x) (t x) (index x)).
    assert (H1 : nth_error (Proxy.set_nth (pq c) i x1) i = Some x1).
    { rewrite nth_error_set_nth, Nat.eqb_refl.
      apply Nat.ltb_lt in Li. now rewrite Li. }
    rewrite (at_index_Some _ _ _ H1). cbn [bind key value ttl t index x1].
    set (x2 := mkCacheItem (key x) v ttl0 (t x) (index x)).
    set (c1 := with_pq _ _).
    assert (N1 : forall p, nth_error (pq c1) p
               = if (p =? i)%nat then Some x2 else nth_error (pq c) p).
    { intros p. unfold c1, with_pq. cbn [pq].
      rewrite !nth_error_set_nth, !set_nth_length.
      apply Nat.ltb_lt in Li. rewrite Li, !andb_true_r.
      now destruct (p =? i)%nat. }
    assert (Hc1 : consistent c1).
    { split.
      - intros p y Hy. rewrite N1 in Hy. unfold c1, with_pq. cbn [m].
        destruct (Nat.eqb_spec p i) as [->|_]; [|now apply Hpos].
        injection Hy as <-. cbn [key x2]. congruence.
      - intros k' q Hq. unfold c1, with_pq in Hq. cbn [m] in Hq.
        rewrite N1. destruct (Nat.eqb_spec q i) as [->|_]; [|now apply Hmap].
        exists x2. split; [reflexivity|]. cbn [key x2].
        destruct (Hmap _ _ Hq) as (y & Hy & Ey). congruence. }
    assert (E1 : forall k', entry c1 k'
               = if String.eqb k' k then Some (v, ttl0, t x) else entry c k').
    { intros k'. unfold entry. unfold c1 at 1, with_pq. cbn [m].
      destruct (String.eqb_spec k' k) as [->|Hne].
      - rewrite Hk, N1, Nat.eqb_refl. reflexivity.
      - destruct (m c k') as [q|] eqn:Hq; [|reflexivity]. rewrite N1.
        destruct (Nat.eqb_spec q i) as [->|_]; [|reflexivity].
        destruct (Hmap _ _ Hq) as (y & Hy & Ey). congruence. }
    assert (L1 : Len c1 = Len c).
    { unfold Len, c1, with_pq. cbn [pq]. now rewrite !set_nth_length. }
    destruct (heap_Fix_rearranged c1 i Hc1) as (c2 & -> & H2 & L2 & C2 & T2 & E2).
    { rewrite L1. exact Li. }
    exists c2. split; [reflexivity|]. split; [assumption|].
    split; [exact C2|]. split; [exact T2|].
    split; [unfold Len in *; congruence|].
    intros k'. now rewrite E2.
  - set (c0 := mkStore (pq c) (pq_cap c) (m c) now).
    assert (Hc0 : consistent c0) by exact Hc.
    assert (E0 : forall k', entry c0 k' = entry c k') by reflexivity.
    fold (Len c).
    destruct (Nat.eqb_spec (Len c) (pq_cap c)) as [Hfull|Hroom].
    + destruct (nth_error_in_range (pq c) 0) as [root Hroot].
      { unfold Len in *. lia. }
      destruct (heap_Pop_spec c0 root Hc0 Hroot)
        as (c1 & -> & H1 & L1 & C1 & T1 & E1). cbn [bind fst].
      assert (Hfresh : m c1 k = None).
      { apply (entry_None c1 k H1). rewrite E1, E0. unfold entry. rewrite Hk.
        now destruct (String.eqb k (key root)). }
      destruct (heap_Push_spec c1 (mkCacheItem k v ttl0 0 0) H1 Hfresh)
        as (c2 & -> & H2 & L2 & C2 & T2 & E2).
      cbn [pq pq_cap ct c0 key value ttl t] in *.
      exists c2. split; [reflexivity|]. split; [assumption|].
      unfold Len in *.
      split; [lia|]. split; [congruence|].
      exists root. split; [assumption|]. split; [lia|].
      intros k'. rewrite E2.
      destruct (String.eqb k' k); [reflexivity|]. now rewrite E1.
    + cbn [bind].
      destruct (heap_Push_spec c0 (mkCacheItem k v ttl0 0 0) Hc0 Hk)
        as (c2 & -> & H2 & L2 & C2 & T2 & E2).
      cbn [pq pq_cap ct c0 key value ttl t] in *.
      exists c2. split; [reflexivity|]. split; [assumption|].
      unfold Len in *.
      split; [lia|]. split; [congruence|]. split; [lia|].
      intros k'. now rewrite E2.
Qed.

Lemma newStore_spec size now :
  0 <= size ->
  newStore size now = Ok (mkStore [] (Z.to_nat size) (fun _ => None) now)
  /\ consistent (mkStore [] (Z.to_nat size) (fun _ => None) now).
Proof.
  intros H. split.
  - unfold newStore. destruct (Z.ltb_spec size 0); [lia|]. reflexivity.
  - split.
    + intros i x Hx. destruct i; discriminate.
    + intros k i Hk. discriminate.
Qed.

Lemma put_keeps_invariant c k v ttl0 now :
  consistent c -> (1 <= pq_cap c)%nat -> (Len c <= pq_cap c)%nat ->
  exists c',
    put c k v ttl0 now = Ok c'
    /\ consistent c' /\ pq_cap c' = pq_cap c /\ (Len c' <= pq_cap c')%nat
    /\ entry c' k <> None
    /\ get c' k = Ok v.
Proof.
  intros Hc Hcap Hlen.
  destruct (put_spec c k v ttl0 now Hc Hcap Hlen) as (c' & Hp & Hc' & C' & _ & Hcase).
  exists c'. split; [assumption|]. split; [assumption|]. split; [assumption|].
  assert (Hk : exists t0, entry c' k = Some (v, ttl0, t0)
                          /\ (Len c' <= pq_cap c')%nat).
  { destruct (entry c k) as [[[v0 l0] t0]|].
    - destruct Hcase as [L E]. exists t0. rewrite E, String.eqb_refl.
      split; [reflexivity|lia].
    - destruct (Nat.eqb_spec (Len c) (pq_cap c)).
      + destruct Hcase as (root & _ & L & E). exists 0.
        rewrite E, String.eqb_refl. split; [reflexivity|lia].
      + destruct Hcase as [L E]. exists 0. rewrite E, String.eqb_refl.
        split; [reflexivity|lia]. }
  destruct Hk as (t0 & Hk & HL). split; [assumption|].
  split; [congruence|]. rewrite (get_entry c' k Hc'), Hk. reflexivity.
Qed.

Lemma puts_keep_invariant ops : forall c,
  consistent c -> (1 <= pq_cap c)%nat -> (Len c <= pq_cap c)%nat ->
  exists c',
    puts c ops = Ok c'
    /\ consistent c' /\ pq_cap c' = pq_cap c /\ (Len c' <= pq_cap c')%nat.
Proof.
  induction ops as [|[[[k v] ttl0] now] rest IH]; intros c Hc Hcap Hlen.
  - exists c. repeat split; trivial; apply Hc.
  - destruct (put_keeps_invariant c k v ttl0 now Hc Hcap Hlen)
      as (c1 & Hp & H1 & C1 & L1 & _).
    cbn [puts]. rewrite Hp. cbn [bind].
    destruct (IH c1 H1) as (c2 & -> & H2 & C2 & L2); [lia|assumption|].
    exists c2. split; [reflexivity|]. split; [assumption|]. split; [congruence|].
    assumption.
Qed.

(** X1.  A store just made holds nothing and has the capacity asked for; any run
    of [put]s on a store of capacity at least one goes through without a
    panic and ends in a store whose map and slice agree and that holds no
    more items than its capacity, which does not change. *)
Theorem store_puts_stay_within_capacity :
  forall (size now : Z) (ops : list (string * option Msg * Z * Z)),
    1 <= size ->
    exists c0 c,
      newStore size now = Ok c0
      /\ Len c0 = 0%nat
      /\ puts c0 ops = Ok c
      /\ consistent c
      /\ (Len c <= pq_cap c)%nat
      /\ pq_cap c = Z.to_nat size.
Proof.
  intros size now ops Hsize.
  destruct (newStore_spec size now) as [Hn Hc0]; [lia|].
  destruct (puts_keep_invariant ops _ Hc0) as (c & Hp & Hc & C & L).
  { cbn [pq_cap]. lia. }
  { cbn [Len pq pq_cap List.length]. unfold Len. cbn. lia. }
  eexists. exists c. split; [exact Hn|]. split; [reflexivity|].
  split; [assumption|]. split; [assumption|]. split; [assumption|].
  exact C.
Qed.

(** X2.  [put] followed by [get] of the same key returns the value put. *)
Theorem store_put_then_get :
  forall (c : store) (k : string) (v : option Msg) (ttl0 now : Z),
    consistent c ->
    (1 <= pq_cap c)%nat ->
    (Len c <= pq_cap c)%nat ->
    exists c', put c k v ttl0 now = Ok c' /\ get c' k = Ok v.
Proof.
  intros c k v ttl0 now Hc Hcap Hlen.
  destruct (put_keeps_invariant c k v ttl0 now Hc Hcap Hlen)
    as (c' & Hp & _ & _ & _ & _ & Hg).
  exists c'. now split.
Qed.

(** X3.  A [put] under a key the store holds replaces the value and the TTL of
    that key and nothing else: the store keeps its length, and every other
    key answers as before. *)
Theorem store_put_existing_key :
  forall (c : store) (k : string) (v : option Msg) (ttl0 now : Z) (i : nat),
    consistent c ->
    (1 <= pq_cap c)%nat ->
    (Len c <= pq_cap c)%nat ->
    m c k = Some i ->
    exists c',
      put c k v ttl0 now = Ok c'
      /\ Len c' = Len c
      /\ (exists t0, entry c' k = Some (v, ttl0, t0))
      /\ forall k', k' <> k -> get c' k' = get c k'.
Proof.
  intros c k v ttl0 now i Hc Hcap Hlen Hk.
  destruct (put_spec c k v ttl0 now Hc Hcap Hlen)
    as (c' & Hp & Hc' & _ & _ & Hcase).
  exists c'. split; [assumption|].
  assert (He : exists e, entry c k = Some e).
  { unfold entry. rewrite Hk. destruct Hc as [_ Hmap].
    destruct (Hmap _ _ Hk) as (x & -> & _). cbn. eauto. }
  destruct He as [[[v0 l0] t0] He]. rewrite He in Hcase.
  destruct Hcase as [L E]. split; [assumption|]. split.
  - exists t0. now rewrite E, String.eqb_refl.
  - intros k' Hne. rewrite (get_entry c' k' Hc'), (get_entry c k' Hc), E.
    now destruct (String.eqb_spec k' k).
Qed.

(** X4.  A [put] under a new key into a store with room adds one item and
    leaves every other key as it was. *)
Theorem store_put_new_key_with_room :
  forall (c : store) (k : string) (v : option Msg) (ttl0 now : Z),
    consistent c ->
    (Len c < pq_cap c)%nat ->
    m c k = None ->
    exists c',
      put c k v ttl0 now = Ok c'
      /\ Len c' = S (Len c)
      /\ entry c' k = Some (v, ttl0, 0)
      /\ forall k', k' <> k -> get c' k' = get c k'.
Proof.
  intros c k v ttl0 now Hc Hlen Hk.
  destruct (put_spec c k v ttl0 now Hc) as (c' & Hp & Hc' & _ & _ & Hcase);
    [lia|lia|].
  exists c'. split; [assumption|].
  unfold entry at 1 in Hcase. rewrite Hk in Hcase.
  destruct (Nat.eqb_spec (Len c) (pq_cap c)); [lia|].
  destruct Hcase as [L E]. split; [assumption|]. split.
  - now rewrite E, String.eqb_refl.
  - intros k' Hne. rewrite (get_entry c' k' Hc'), (get_entry c k' Hc), E.
    now destruct (String.eqb_spec k' k).
Qed.

Lemma put_when_full c k v ttl0 now :
  consistent c ->
  (1 <= pq_cap c)%nat ->
  Len c = pq_cap c ->
  m c k = None ->
  exists c' root,
    put c k v ttl0 now = Ok c'
    /\ consistent c'
    /\ nth_error (pq c) 0 = Some root
    /\ key root <> k
    /\ Len c' = Len c
    /\ forall k', entry c' k'
                  = if String.eqb k' k then Some (v, ttl0, 0)
                    else if String.eqb k' (key root) then None
                    else entry c k'.
Proof.
  intros Hc Hcap Hfull Hk.
  destruct (put_spec c k v ttl0 now Hc) as (c' & Hp & Hc' & _ & _ & Hcase);
    [lia|lia|].
  unfold entry at 1 in Hcase. rewrite Hk in Hcase.
  destruct (Nat.eqb_spec (Len c) (pq_cap c)); [|lia].
  destruct Hcase as (root & Hroot & L & E).
  exists c', root. split; [assumption|]. split; [assumption|].
  split; [assumption|]. split; [|split; assumption].
  intros <-. destruct Hc as [Hpos _]. rewrite (Hpos _ _ Hroot) in Hk.
  discriminate.
Qed.

(** X5.  A [put] under a new key into a full store pushes out the item at the
    head of the slice, and only that one: the store keeps its length, the
    key of the head is gone, and every other key answers as before. *)
Theorem store_put_new_key_when_full :
  forall (c : store) (k : string) (v : option Msg) (ttl0 now : Z),
    consistent c ->
    (1 <= pq_cap c)%nat ->
    Len c = pq_cap c ->
    m c k = None ->
    exists c' root,
      put c k v ttl0 now = Ok c'
      /\ nth_error (pq c) 0 = Some root
      /\ Len c' = Len c
      /\ get c' k = Ok v
      /\ get c' (key root) = Ok None
      /\ forall k', k' <> k -> k' <> key root -> get c' k' = get c k'.
Proof.
  intros c k v ttl0 now Hc Hcap Hfull Hk.
  destruct (put_when_full c k v ttl0 now Hc Hcap Hfull Hk)
    as (c' & root & Hp & Hc' & Hroot & Hkr & L & E).
  exists c', root. split; [assumption|]. split; [assumption|].
  split; [assumption|]. split; [|split].
  - now rewrite (get_entry c' k Hc'), E, String.eqb_refl.
  - rewrite (get_entry c' _ Hc'), E.
    destruct (String.eqb_spec (key root) k); [congruence|].
    now rewrite String.eqb_refl.
  - intros k' Hne Hnr.
    rewrite (get_entry c' k' Hc'), (get_entry c k' Hc), E.
    destruct (String.eqb_spec k' k); [congruence|].
    now destruct (String.eqb_spec k' (key root)).
Qed.

(** X9.  [newStore] panics on a negative size, and on a store of size 0 every
    [put] panics: the slice is full from the start, and [heap.Pop] reads
    the position -1 of an empty slice. *)
Theorem store_without_room_panics :
  forall (size now : Z) (k : string) (v : option Msg) (ttl0 now' : Z),
    (size < 0 -> exists why, newStore size now = Panic why)
    /\ exists c0,
         newStore 0 now = Ok c0
         /\ put c0 k v ttl0 now' = Panic index_out_of_range.
Proof.
  intros size now k v ttl0 now'. split.
  - intros H. unfold newStore. destruct (Z.ltb_spec size 0); [eauto|lia].
  - eexists. split; reflexivity.
Qed.

(** *** The heap order *)

Lemma Less_seconds c i j :
  (i < Len c)%nat -> (j < Len c)%nat ->
  Less c i j = Ok (seconds_at c i <? seconds_at c j).
Proof.
  unfold Len, Less, seconds_at. intros Hi Hj.
  destruct (nth_error_in_range _ _ Hi) as [x Hx].
  destruct (nth_error_in_range _ _ Hj) as [y Hy].
  now rewrite (at_index_Some _ _ _ Hx), (at_index_Some _ _ _ Hy), Hx, Hy.
Qed.

Lemma Swap_seconds c i j c' :
  (i < Len c)%nat -> (j < Len c)%nat -> Swap c i j = Ok c' ->
  Len c' = Len c
  /\ forall p, seconds_at c' p
               = if (p =? j)%nat then seconds_at c i
                 else if (p =? i)%nat then seconds_at c j
                 else seconds_at c p.
Proof.
  unfold Len. intros Li Lj Hs.
  destruct (nth_error_in_range _ _ Li) as [xi Hi].
  destruct (nth_error_in_range _ _ Lj) as [xj Hj].
  destruct (Swap_spec c i j xi xj Hi Hj) as (c2 & Hs2 & L & _ & T & _ & Hn).
  assert (c2 = c') by congruence. subst c2. split; [assumption|].
  intros p. unfold seconds_at. rewrite Hn, T, Hi, Hj.
  destruct (p =? j)%nat; [reflexivity|]. now destruct (p =? i)%nat.
Qed.

Lemma Swap_defined c i j :
  (i < Len c)%nat -> (j < Len c)%nat -> exists c', Swap c i j = Ok c'.
Proof.
  unfold Len. intros Li Lj.
  destruct (nth_error_in_range _ _ Li) as [xi Hi].
  destruct (nth_error_in_range _ _ Lj) as [xj Hj].
  destruct (Swap_spec c i j xi xj Hi Hj) as (c' & Hs & _). eauto.
Qed.

Lemma parent_of k :
  (k - 1 = 2 * ((k - 1) / 2) + (k - 1) mod 2 /\ (k - 1) mod 2 < 2)%nat.
Proof.
  split; [apply Nat.div_mod_eq|]. apply Nat.mod_upper_bound. lia.
Qed.

(** [up] from position [j] restores the heap order when only the item at
    [j] may have fewer seconds left than its parent, the children of [j]
    having no fewer than the parent of [j]. *)
Lemma up_loop_order : forall fuel c j,
  (j < fuel)%nat -> (j < Len c)%nat ->
  (forall k, (0 < k < Len c)%nat -> k <> j ->
     seconds_at c ((k - 1) / 2) <= seconds_at c k) ->
  (forall k, (0 < j)%nat -> (k < Len c)%nat -> (0 < k)%nat -> ((k - 1) / 2)%nat = j ->
     seconds_at c ((j - 1) / 2) <= seconds_at c k) ->
  exists c', up_loop fuel c j = Ok c' /\ Len c' = Len c /\ ordered_below (Len c) c'.
Proof.
  induction fuel as [|fuel IH]; intros c j Hf Lj U1 U2; [lia|].
  cbn [up_loop]. pose proof (parent_of j) as [Pj Pj'].
  destruct (Nat.eqb_spec ((j - 1) / 2) j) as [E|Hne].
  { exists c. split; [reflexivity|]. split; [reflexivity|].
    intros k Hk. apply U1; [assumption|lia]. }
  assert (Li : ((j - 1) / 2 < Len c)%nat) by lia.
  rewrite (Less_seconds c j _ Lj Li). cbn [bind].
  destruct (Z.ltb_spec (seconds_at c j) (seconds_at c ((j - 1) / 2))) as [Hlt|Hge];
    cbn [negb].
  2:{ exists c. split; [reflexivity|]. split; [reflexivity|]. intros k Hk.
      destruct (Nat.eq_dec k j) as [->|Hkj]; [assumption|now apply U1]. }
  destruct (Swap_defined c ((j - 1) / 2) j Li Lj) as [c1 Hs].
  rewrite Hs. cbn [bind].
  destruct (Swap_seconds c _ j c1 Li Lj Hs) as [L1 S1].
  destruct (IH c1 ((j - 1) / 2)%nat) as (c2 & -> & L2 & O2); try lia.
  - intros k Hk Hki. rewrite L1 in Hk. rewrite !S1.
    pose proof (parent_of k) as [Pk Pk'].
    destruct (Nat.eqb_spec k j) as [->|Hkj].
    + rewrite Nat.eqb_refl.
      destruct (Nat.eqb_spec ((j - 1) / 2) j); [lia|]. lia.
    + destruct (Nat.eqb_spec k ((j - 1) / 2)); [lia|].
      destruct (Nat.eqb_spec ((k - 1) / 2) j) as [Epj|Npj].
      * specialize (U2 k). lia.
      * destruct (Nat.eqb_spec ((k - 1) / 2) ((j - 1) / 2)) as [Epi|Npi].
        -- specialize (U1 k). rewrite Epi in U1. lia.
        -- specialize (U1 k). lia.
  - intros k Hi Hk Hk0 Hpk. rewrite L1 in Hk. rewrite !S1.
    pose proof (parent_of k) as [Pk Pk'].
    pose proof (parent_of ((j - 1) / 2)) as [Pi Pi'].
    destruct (Nat.eqb_spec (((j - 1) / 2 - 1) / 2) j); [lia|].
    destruct (Nat.eqb_spec (((j - 1) / 2 - 1) / 2) ((j - 1) / 2)); [lia|].
    pose proof (U1 ((j - 1) / 2)%nat) as Ui.
    destruct (Nat.eqb_spec k j) as [->|Hkj]; [lia|].
    destruct (Nat.eqb_spec k ((j - 1) / 2)); [lia|].
    specialize (U1 k). rewrite Hpk in U1. lia.
  - exists c2. split; [reflexivity|]. split; [congruence|]. now rewrite <- L1.
Qed.


(** [down] from position [i] restores the heap order below [n] when only
    the children of [i] may have fewer seconds left than their parent; when
    it returns false it has moved nothing, and the children of [i] have no
    fewer seconds left than [i]. *)
Lemma down_loop_order : forall fuel c i0 i n,
  (n - i <= fuel)%nat -> (n <= Len c)%nat -> (i0 <= i)%nat ->
  (forall k, (0 < k < n)%nat -> k <> i -> ((k - 1) / 2)%nat <> i ->
     seconds_at c ((k - 1) / 2) <= seconds_at c k) ->
  (forall k, (0 < i)%nat -> (0 < k < n)%nat -> ((k - 1) / 2)%nat = i ->
     seconds_at c ((i - 1) / 2) <= seconds_at c k) ->
  ((i0 < i)%nat -> seconds_at c ((i - 1) / 2) <= seconds_at c i) ->
  exists c' b,
    down_loop fuel c i0 i n = Ok (c', b)
    /\ Len c' = Len c
    /\ (b = true -> ordered_below n c')
    /\ (b = false ->
        c' = c /\ i = i0
        /\ forall k, (0 < k < n)%nat -> ((k - 1) / 2)%nat = i ->
             seconds_at c i <= seconds_at c k).
Proof.
  induction fuel as [|fuel IH]; intros c i0 i n Hf Hn Hi0 F1 F2 Hin.
  - exists c, (i0 <? i)%nat. split; [reflexivity|]. split; [reflexivity|].
    split.
    + intros Hb. apply Nat.ltb_lt in Hb. intros k Hk.
      pose proof (parent_of k) as [Pk Pk']. apply F1; lia.
    + intros Hb. apply Nat.ltb_ge in Hb. split; [reflexivity|].
      split; [lia|]. intros k Hk Hp. pose proof (parent_of k) as [Pk Pk']. lia.
  - cbn [down_loop].
    assert (Hstop : (forall k, (0 < k < n)%nat -> ((k - 1) / 2)%nat = i ->
                       seconds_at c i <= seconds_at c k) ->
              exists c' b,
                Ok (c, (i0 <? i)%nat) = Ok (c', b)
                /\ Len c' = Len c
                /\ (b = true -> ordered_below n c')
                /\ (b = false ->
                    c' = c /\ i = i0
                    /\ forall k, (0 < k < n)%nat -> ((k - 1) / 2)%nat = i ->
                         seconds_at c i <= seconds_at c k)).
    { intros E. exists c, (i0 <? i)%nat. split; [reflexivity|].
      split; [reflexivity|]. split.
      - intros Hb. apply Nat.ltb_lt in Hb. intros k Hk.
        destruct (Nat.eq_dec k i) as [->|Hki]; [now apply Hin|].
        destruct (Nat.eq_dec ((k - 1) / 2) i) as [Hp|Hp].
        + rewrite Hp. now apply E.
        + now apply F1.
      - intros Hb. apply Nat.ltb_ge in Hb. split; [reflexivity|].
        split; [lia|]. exact E. }
    destruct (Nat.leb_spec n (2 * i + 1)) as [Hleaf|Hj1].
    { apply Hstop. intros k Hk Hp. pose proof (parent_of k) as [Pk Pk']. lia. }
    assert (Hb2 : exists b2,
               (if (2 * i + 1 + 1 <? n)%nat
                then Less c (2 * i + 1 + 1) (2 * i + 1) else Ok false) = Ok b2
               /\ (b2 = true ->
                   (2 * i + 1 + 1 < n)%nat
                   /\ seconds_at c (2 * i + 1 + 1) < seconds_at c (2 * i + 1))
               /\ (b2 = false -> (2 * i + 1 + 1 < n)%nat ->
                   seconds_at c (2 * i + 1) <= seconds_at c (2 * i + 1 + 1))).
    { destruct (Nat.ltb_spec (2 * i + 1 + 1) n) as [H2|H2].
      - rewrite Less_seconds by lia. eexists. split; [reflexivity|].
        destruct (Z.ltb_spec (seconds_at c (2 * i + 1 + 1))
                    (seconds_at c (2 * i + 1))); split; intros; try discriminate;
          try split; lia.
      - exists false. split; [reflexivity|]. split; [discriminate|]. lia. }
    destruct Hb2 as (b2 & -> & Hb2t & Hb2f). cbn [bind].
    set (j := if b2 then (2 * i + 1 + 1)%nat else (2 * i + 1)%nat).
    assert (Hj : (j = 2 * i + 1 \/ j = 2 * i + 2)%nat /\ (j < n)%nat).
    { unfold j. destruct b2; [destruct (Hb2t eq_refl)|]; lia. }
    assert (Hsmall : forall k, (0 < k < n)%nat -> ((k - 1) / 2)%nat = i ->
                       seconds_at c j <= seconds_at c k).
    { intros k Hk Hp. pose proof (parent_of k) as [Pk Pk'].
      assert (Hk' : (k = 2 * i + 1 \/ k = 2 * i + 1 + 1)%nat) by lia.
      unfold j. destruct b2.
      - destruct (Hb2t eq_refl). destruct Hk' as [->| ->]; lia.
      - specialize (Hb2f eq_refl). destruct Hk' as [->| ->]; lia. }
    rewrite (Less_seconds c j i) by lia. cbn [bind].
    destruct (Z.ltb_spec (seconds_at c j) (seconds_at c i)) as [Hlt|Hge];
      cbn [negb].
    2:{ apply Hstop. intros k Hk Hp. specialize (Hsmall k Hk Hp). lia. }
    destruct (Swap_defined c i j) as [c1 Hs]; [lia|lia|].
    rewrite Hs. cbn [bind].
    destruct (Swap_seconds c i j c1) as [L1 S1]; [lia|lia|assumption|].
    pose proof (parent_of j) as [Pj Pj'].
    assert (Hpj : ((j - 1) / 2)%nat = i) by lia.
    destruct (IH c1 i0 j n) as (c2 & b & -> & L2 & Ot & Of); try lia.
    + intros k Hk Hkj Hpk. rewrite !S1.
      pose proof (parent_of k) as [Pk Pk'].
      destruct (Nat.eqb_spec k j); [lia|].
      destruct (Nat.eqb_spec ((k - 1) / 2) j); [lia|].
      destruct (Nat.eqb_spec k i) as [->|Hki].
      * destruct (Nat.eqb_spec ((i - 1) / 2) i); [lia|].
        apply (F2 j); lia.
      * destruct (Nat.eqb_spec ((k - 1) / 2) i) as [Hpi|Hpi].
        -- now apply Hsmall.
        -- now apply F1.
    + intros k Hj0 Hk Hpk. rewrite !S1, Hpj.
      pose proof (parent_of k) as [Pk Pk'].
      destruct (Nat.eqb_spec i j); [lia|]. rewrite Nat.eqb_refl.
      destruct (Nat.eqb_spec k j); [lia|].
      destruct (Nat.eqb_spec k i); [lia|].
      specialize (F1 k). rewrite Hpk in F1. apply F1; lia.
    + intros _. rewrite !S1, Hpj.
      repeat match goal with
             | |- context [Nat.eqb ?x ?y] => destruct (Nat.eqb_spec x y)
             end; lia.
    + exists c2, b. split; [reflexivity|]. split; [congruence|].
      split; [assumption|]. intros Hb. destruct (Of Hb) as (_ & E & _). lia.
Qed.

Lemma Push_seconds c x :
  Len (Push c x) = S (Len c)
  /\ (forall p, (p < Len c)%nat -> seconds_at (Push c x) p = seconds_at c p)
  /\ seconds_at (Push c x) (Len c) = secondsLeft x (ct c).
Proof.
  unfold Len, seconds_at, Push. cbn [pq ct].
  split; [rewrite length_app; cbn; lia|]. split.
  - intros p Hp. now rewrite nth_error_app1.
  - rewrite nth_error_app2 by lia. now rewrite Nat.sub_diag.
Qed.

Lemma heap_Push_order c x :
  heap_ordered c ->
  exists c', heap_Push c x = Ok c' /\ Len c' = S (Len c) /\ heap_ordered c'.
Proof.
  intros Ho. unfold heap_Push.
  destruct (Push_seconds c x) as (L1 & S1 & _).
  rewrite L1. replace (S (Len c) - 1)%nat with (Len c) by lia.
  destruct (up_loop_order (S (Len c)) (Push c x) (Len c)) as (c' & Hu & L' & O');
    try lia.
  - intros k Hk Hne. pose proof (parent_of k) as [Pk Pk'].
    rewrite !S1 by lia. apply Ho. lia.
  - intros k _ Hk Hk0 Hp. pose proof (parent_of k) as [Pk Pk']. lia.
  - exists c'. split; [exact Hu|]. split; [congruence|].
    unfold heap_ordered. now rewrite L'.
Qed.

Lemma Pop_seconds c n :
  List.length (pq c) = S n ->
  exists c' item,
    Pop c = Ok (c', item)
    /\ Len c' = n
    /\ forall p, (p < n)%nat -> seconds_at c' p = seconds_at c p.
Proof.
  intros HL. unfold Pop. rewrite HL.
  destruct (nth_error_in_range (pq c) n) as [x Hx]; [lia|].
  rewrite (at_index_Some _ _ _ Hx). cbn [bind]. eexists. eexists.
  split; [reflexivity|]. unfold Len, seconds_at. cbn [pq ct].
  split; [rewrite length_firstn; lia|].
  intros p Hp. rewrite nth_error_firstn.
  apply Nat.ltb_lt in Hp. now rewrite Hp.
Qed.

Lemma heap_Pop_order c :
  heap_ordered c -> (0 < Len c)%nat ->
  exists c' item,
    heap_Pop c = Ok (c', item) /\ S (Len c') = Len c /\ heap_ordered c'.
Proof.
  intros Ho Hpos. unfold heap_Pop.
  destruct (Len c) as [|n] eqn:HL; [lia|].
  destruct (Swap_defined c 0 n) as [c1 Hs]; [lia|lia|].
  rewrite Hs. cbn [bind].
  destruct (Swap_seconds c 0 n c1) as [L1 S1]; [lia|lia|assumption|].
  assert (F1 : forall k, (0 < k < n)%nat ->
             seconds_at c1 ((k - 1) / 2) <= seconds_at c1 k \/ ((k - 1) / 2 = 0)%nat).
  { intros k Hk. pose proof (parent_of k) as [Pk Pk'].
    destruct (Nat.eq_dec ((k - 1) / 2) 0) as [|Hp]; [now right|left].
    rewrite !S1.
    destruct (Nat.eqb_spec k n); [lia|].
    destruct (Nat.eqb_spec k 0); [lia|].
    destruct (Nat.eqb_spec ((k - 1) / 2) n); [lia|].
    destruct (Nat.eqb_spec ((k - 1) / 2) 0); [lia|].
    apply Ho. lia. }
  destruct (down_loop_order n c1 0 0 n) as (c2 & b & Hd & L2 & Ot & Of); try lia.
  { intros k Hk Hk0 Hp. destruct (F1 k Hk); [assumption|congruence]. }
  unfold down. rewrite Hd. cbn [bind fst].
  assert (O2 : ordered_below n c2).
  { destruct b; [now apply Ot|].
    destruct (Of eq_refl) as (-> & _ & E). intros k Hk.
    destruct (F1 k Hk) as [|Hp]; [assumption|]. rewrite Hp. now apply E. }
  destruct (Pop_seconds c2 n) as (c3 & item & -> & L3 & S3).
  { unfold Len in *. lia. }
  exists c3, item. split; [reflexivity|]. split; [lia|].
  unfold heap_ordered. rewrite L3. intros k Hk.
  pose proof (parent_of k) as [Pk Pk']. rewrite !S3 by lia. now apply O2.
Qed.

Lemma heap_Fix_order c i :
  (i < Len c)%nat ->
  (forall k, (0 < k < Len c)%nat -> k <> i -> ((k - 1) / 2)%nat <> i ->
     seconds_at c ((k - 1) / 2) <= seconds_at c k) ->
  (forall k, (0 < i)%nat -> (0 < k < Len c)%nat -> ((k - 1) / 2)%nat = i ->
     seconds_at c ((i - 1) / 2) <= seconds_at c k) ->
  exists c', heap_Fix c i = Ok c' /\ Len c' = Len c /\ heap_ordered c'.
Proof.
  intros Hi F1 F2. unfold heap_Fix, down.
  destruct (down_loop_order (Len c) c i i (Len c)) as (c1 & b & -> & L1 & Ot & Of);
    try lia; try assumption.
  cbn [bind fst snd]. destruct b; cbn [negb].
  - exists c1. split; [reflexivity|]. split; [assumption|].
    unfold heap_ordered. rewrite L1. now apply Ot.
  - destruct (Of eq_refl) as (-> & _ & E).
    destruct (up_loop_order (S i) c i) as (c2 & Hu & L2 & O2); try lia.
    + intros k Hk Hne.
      destruct (Nat.eq_dec ((k - 1) / 2) i) as [Hp|Hp].
      * rewrite Hp. now apply E.
      * now apply F1.
    + intros k Hi0 Hk Hk0 Hp. apply F2; [assumption|lia|assumption].
    + exists c2. split; [exact Hu|]. split; [assumption|].
      unfold heap_ordered. now rewrite L2.
Qed.

(** The item at the head of an ordered store has the fewest seconds left. *)
Lemma root_is_least c :
  heap_ordered c ->
  forall p, (p < Len c)%nat -> seconds_at c 0 <= seconds_at c p.
Proof.
  intros Ho p. induction p as [p IH] using (well_founded_induction lt_wf).
  intros Hp. destruct p as [|p]; [lia|].
  pose proof (parent_of (S p)) as [Pk Pk'].
  specialize (IH ((S p - 1) / 2)%nat). specialize (Ho (S p)).
  unfold heap_ordered in Ho. lia.
Qed.

Lemma int64_small z : - 2 ^ 63 <= z < 2 ^ 63 -> int64 z = z.
Proof. intros H. unfold int64. rewrite Z.mod_small; lia. Qed.

Lemma secondsLeft_exact x now :
  in_bounds (ttl x) -> in_bounds (t x) -> in_bounds now ->
  secondsLeft x now = ttl x + t x - now.
Proof.
  unfold in_bounds, secondsLeft. intros H1 H2 H3.
  rewrite (int64_small (now - t x)) by lia. rewrite int64_small; lia.
Qed.

Lemma item_in_bounds c p x :
  consistent c -> bounded c -> nth_error (pq c) p = Some x ->
  in_bounds (ttl x) /\ in_bounds (t x).
Proof.
  intros [Hpos _] [_ Hb] Hx. apply (Hb (key x) (value x)).
  unfold entry. now rewrite (Hpos _ _ Hx), Hx.
Qed.

(** With no wrap-around the order of the seconds left is the order of the
    expiry instants, whatever the time of the store. *)
Lemma retime_order c now :
  consistent c -> bounded c -> in_bounds now -> heap_ordered c ->
  heap_ordered (mkStore (pq c) (pq_cap c) (m c) now).
Proof.
  intros Hc Hb Hnow Ho k Hk. unfold Len in Hk. cbn [pq] in Hk.
  pose proof (parent_of k) as [Pk Pk'].
  specialize (Ho k Hk). unfold seconds_at in *. cbn [pq ct].
  destruct (nth_error_in_range (pq c) k) as [x Hx]; [lia|].
  destruct (nth_error_in_range (pq c) ((k - 1) / 2)) as [y Hy]; [unfold Len in *; lia|].
  rewrite Hx, Hy in *.
  destruct (item_in_bounds c _ _ Hc Hb Hx), (item_in_bounds c _ _ Hc Hb Hy).
  destruct Hb as [Hct _].
  rewrite !secondsLeft_exact in * by assumption. lia.
Qed.

Lemma set_nth_twice {X : Type} (l : list X) : forall i x y,
  Proxy.set_nth (Proxy.set_nth l i x) i y = Proxy.set_nth l i y.
Proof.
  induction l as [|z rest IH]; intros i x y; simpl; [reflexivity|].
  destruct i; simpl; [reflexivity|]. now rewrite IH.
Qed.

Lemma put_existing_unfold c k v ttl0 now i x :
  m c k = Some i -> nth_error (pq c) i = Some x ->
  put c k v ttl0 now
  = heap_Fix (mkStore (Proxy.set_nth (pq c) i
                         (mkCacheItem (key x) v ttl0 (t x) (index x)))
                (pq_cap c) (m c) now) i.
Proof.
  intros Hk Hx. unfold put. cbn [pq pq_cap m ct]. rewrite Hk.
  rewrite (at_index_Some _ _ _ Hx). cbn [bind].
  assert (Li : (i < List.length (pq c))%nat)
    by (apply nth_error_Some; congruence).
  set (x1 := mkCacheItem (key x) v (ttl x) (t x) (index x)).
  assert (H1 : nth_error (Proxy.set_nth (pq c) i x1) i = Some x1).
  { rewrite nth_error_set_nth, Nat.eqb_refl.
    apply Nat.ltb_lt in Li. now rewrite Li. }
  rewrite (at_index_Some _ _ _ H1). cbn [bind key value ttl t index x1].
  unfold with_pq. cbn [pq pq_cap m ct]. now rewrite set_nth_twice.
Qed.

Lemma put_new_unfold c k v ttl0 now :
  m c k = None ->
  put c k v ttl0 now
  = (c1 <- (if (Len c =? pq_cap c)%nat
            then r <- heap_Pop (mkStore (pq c) (pq_cap c) (m c) now) ;; Ok (fst r)
            else Ok (mkStore (pq c) (pq_cap c) (m c) now)) ;;
     heap_Push c1 (mkCacheItem k v ttl0 0 0)).
Proof. intros Hk. unfold put. cbn [pq pq_cap m ct]. now rewrite Hk. Qed.

(** [put] keeps the heap order and the bounds. *)
Lemma put_order c k v ttl0 now :
  consistent c -> (1 <= pq_cap c)%nat -> (Len c <= pq_cap c)%nat ->
  heap_ordered c -> bounded c -> in_bounds now -> in_bounds ttl0 ->
  exists c',
    put c k v ttl0 now = Ok c' /\ heap_ordered c' /\ bounded c'.
Proof.
  intros Hc Hcap Hlen Ho Hb Hnow Httl.
  destruct (put_spec c k v ttl0 now Hc Hcap Hlen)
    as (c' & Hp & Hc' & _ & T' & Hcase).
  exists c'. split; [assumption|].
  assert (Hzero : in_bounds 0) by (unfold in_bounds; lia).
  split.
  - pose proof (retime_order c now Hc Hb Hnow Ho) as O0.
    set (c0 := mkStore (pq c) (pq_cap c) (m c) now) in *.
    destruct (m c k) as [i|] eqn:Hk.
    + pose proof Hc as [_ Hmap]. destruct (Hmap _ _ Hk) as (x & Hx & _).
      rewrite (put_existing_unfold c k v ttl0 now i x Hk Hx) in Hp.
      set (c1 := mkStore _ _ _ _) in Hp.
      assert (Li : (i < Len c)%nat) by (unfold Len; apply nth_error_Some; congruence).
      assert (L1 : Len c1 = Len c0).
      { unfold Len, c1, c0. cbn [pq]. apply set_nth_length. }
      assert (S1 : forall p, p <> i -> seconds_at c1 p = seconds_at c0 p).
      { intros p Hne. unfold seconds_at, c1, c0. cbn [pq ct].
        rewrite nth_error_set_nth.
        destruct (Nat.eqb_spec p i); [congruence|reflexivity]. }
      destruct (heap_Fix_order c1 i) as (c2 & Hf & _ & O2).
      * rewrite L1. exact Li.
      * intros j Hj Hji Hpj. rewrite !S1 by assumption. apply O0.
        now rewrite <- L1.
      * intros j Hi0 Hj Hpj. pose proof (parent_of j) as [Pj Pj'].
        pose proof (parent_of i) as [Pi Pi'].
        rewrite !S1 by lia. rewrite L1 in Hj.
        pose proof (O0 j Hj) as E1. rewrite Hpj in E1.
        assert (E2 : seconds_at c0 ((i - 1) / 2) <= seconds_at c0 i).
        { apply O0. unfold Len in *. cbn [pq c0]. lia. }
        lia.
      * rewrite Hf in Hp. injection Hp as <-. exact O2.
    + rewrite (put_new_unfold c k v ttl0 now Hk) in Hp. fold c0 in Hp.
      destruct (Nat.eqb_spec (Len c) (pq_cap c)).
      * destruct (heap_Pop_order c0 O0) as (c1 & item & Hpop & _ & O1).
        { unfold Len in *. cbn [pq c0]. lia. }
        rewrite Hpop in Hp. cbn [bind fst] in Hp.
        destruct (heap_Push_order c1 (mkCacheItem k v ttl0 0 0) O1)
          as (c2 & Hpush & _ & O2).
        rewrite Hpush in Hp. injection Hp as <-. exact O2.
      * cbn [bind] in Hp.
        destruct (heap_Push_order c0 (mkCacheItem k v ttl0 0 0) O0)
          as (c2 & Hpush & _ & O2).
        rewrite Hpush in Hp. injection Hp as <-. exact O2.
  - split; [now rewrite T'|].
    destruct Hb as [_ Hb]. intros k' v' l' t' He.
    destruct (entry c k) as [[[v0 l0] t0]|] eqn:Hk.
    + destruct Hcase as [_ E]. rewrite E in He.
      destruct (String.eqb k' k); [|now apply (Hb k' v')].
      injection He as <- <- <-. split; [assumption|]. apply (Hb k v0 l0 t0 Hk).
    + destruct (Nat.eqb (Len c) (pq_cap c)).
      * destruct Hcase as (root & _ & _ & E). rewrite E in He.
        destruct (String.eqb k' k).
        { injection He as <- <- <-. now split. }
        destruct (String.eqb k' (key root)); [discriminate|].
        now apply (Hb k' v').
      * destruct Hcase as [_ E]. rewrite E in He.
        destruct (String.eqb k' k); [|now apply (Hb k' v')].
        injection He as <- <- <-. now split.
Qed.

Lemma put_untimed c k v ttl0 now :
  consistent c -> (1 <= pq_cap c)%nat -> (Len c <= pq_cap c)%nat ->
  untimed c ->
  forall c', put c k v ttl0 now = Ok c' -> untimed c'.
Proof.
  intros Hc Hcap Hlen Hu c' Hp.
  destruct (put_spec c k v ttl0 now Hc Hcap Hlen) as (c2 & Hp2 & _ & _ & _ & Hcase).
  assert (c2 = c') by congruence. subst c2.
  intros k' v' l' t' He.
  destruct (entry c k) as [[[v0 l0] t0]|] eqn:Hk.
  - destruct Hcase as [_ E]. rewrite E in He.
    destruct (String.eqb k' k); [|now apply (Hu k' v' l')].
    injection He as _ _ <-. now apply (Hu k v0 l0).
  - destruct (Nat.eqb (Len c) (pq_cap c)).
    + destruct Hcase as (root & _ & _ & E). rewrite E in He.
      destruct (String.eqb k' k); [now injection He as _ _ <-|].
      destruct (String.eqb k' (key root)); [discriminate|].
      now apply (Hu k' v' l').
    + destruct Hcase as [_ E]. rewrite E in He.
      destruct (String.eqb k' k); [now injection He as _ _ <-|].
      now apply (Hu k' v' l').
Qed.

Lemma puts_keep_order ops : forall c,
  consistent c -> (1 <= pq_cap c)%nat -> (Len c <= pq_cap c)%nat ->
  heap_ordered c -> bounded c -> untimed c -> ops_in_bounds ops ->
  exists c',
    puts c ops = Ok c'
    /\ consistent c' /\ pq_cap c' = pq_cap c /\ (Len c' <= pq_cap c')%nat
    /\ heap_ordered c' /\ bounded c' /\ untimed c'.
Proof.
  induction ops as [|[[[k v] ttl0] now] rest IH];
    intros c Hc Hcap Hlen Ho Hb Hu Hops.
  - exists c. split; [reflexivity|]. split; [assumption|].
    split; [reflexivity|]. split; [assumption|]. split; [assumption|].
    split; assumption.
  - inversion Hops as [|op ops' [Httl Hnow] Hrest]; subst. cbn [fst snd] in *.
    destruct (put_keeps_invariant c k v ttl0 now Hc Hcap Hlen)
      as (c1 & Hp & H1 & C1 & L1 & _).
    destruct (put_order c k v ttl0 now Hc Hcap Hlen Ho Hb Hnow Httl)
      as (c1' & Hp' & O1 & B1).
    assert (c1' = c1) by congruence. subst c1'.
    pose proof (put_untimed c k v ttl0 now Hc Hcap Hlen Hu c1 Hp) as U1.
    cbn [puts]. rewrite Hp. cbn [bind].
    destruct (IH c1 H1) as (c2 & -> & H2 & C2 & L2 & O2 & B2 & U2);
      try assumption; [lia|].
    exists c2. split; [reflexivity|]. split; [assumption|].
    split; [congruence|]. split; [assumption|]. split; [assumption|].
    split; assumption.
Qed.

Lemma new_store_order size now :
  in_bounds now ->
  heap_ordered (mkStore [] size (fun _ => None) now)
  /\ bounded (mkStore [] size (fun _ => None) now)
  /\ untimed (mkStore [] size (fun _ => None) now).
Proof.
  intros Hnow. split; [|split].
  - intros k Hk. unfold Len in Hk. cbn in Hk. lia.
  - split; [assumption|]. intros k v l t0 He. discriminate.
  - intros k v l t0 He. discriminate.
Qed.

(** X7.  The store keeps the heap order, and it never records when an item was
    put: in every store reached from [newStore] by [put]s whose TTLs and
    clock readings are far from the ends of [int64], no item has fewer
    seconds left than its parent, and every entry has the insertion time
    0, so that the seconds left of an item are its TTL minus the time of
    the store. *)
Theorem store_puts_keep_heap_order :
  forall (size now : Z) (ops : list (string * option Msg * Z * Z)),
    1 <= size ->
    in_bounds now ->
    ops_in_bounds ops ->
    exists c0 c,
      newStore size now = Ok c0
      /\ puts c0 ops = Ok c
      /\ heap_ordered c
      /\ (forall p, (p < Len c)%nat -> seconds_at c 0 <= seconds_at c p)
      /\ (forall p x, nth_error (pq c) p = Some x ->
            t x = 0 /\ secondsLeft x (ct c) = ttl x - ct c).
Proof.
  intros size now ops Hsize Hnow Hops.
  destruct (newStore_spec size now) as [Hn Hc0]; [lia|].
  destruct (new_store_order (Z.to_nat size) now Hnow) as (O0 & B0 & U0).
  destruct (puts_keep_order ops _ Hc0) as (c & Hp & Hc & _ & _ & Ho & Hb & Hu);
    try assumption.
  { cbn [pq_cap]. lia. }
  { unfold Len. cbn. lia. }
  eexists. exists c. split; [exact Hn|]. split; [assumption|].
  split; [assumption|]. split; [now apply root_is_least|].
  intros p x Hx.
  destruct (item_in_bounds c p x Hc Hb Hx) as [Bl Bt].
  assert (Ht : t x = 0).
  { apply (Hu (key x) (value x) (ttl x)). unfold entry.
    destruct Hc as [Hpos _]. now rewrite (Hpos _ _ Hx), Hx. }
  split; [assumption|].
  rewrite secondsLeft_exact; try assumption; [lia|apply Hb].
Qed.


(** The sample stores are what [put] makes of the empty store. *)
Lemma empty_store_facts :
  consistent Examples.empty_store
  /\ heap_ordered Examples.empty_store
  /\ bounded Examples.empty_store
  /\ untimed Examples.empty_store.
Proof.
  assert (Hb : in_bounds 1000) by (unfold in_bounds; lia).
  split; [apply (newStore_spec 2 1000); lia|].
  apply (new_store_order 2 1000 Hb).
Qed.

Lemma full_store_facts :
  consistent Examples.full_store
  /\ heap_ordered Examples.full_store
  /\ bounded Examples.full_store.
Proof.
  destruct empty_store_facts as (Hc & Ho & Hb & Hu).
  destruct (puts_keep_order Examples.store_ops Examples.empty_store Hc)
    as (c & Hp & Hc' & _ & _ & Ho' & Hb' & _); try assumption.
  - cbn. lia.
  - cbn. lia.
  - unfold ops_in_bounds, in_bounds, Examples.store_ops.
    repeat constructor; cbn [fst snd]; lia.
  - assert (E : c = Examples.full_store).
    { unfold Examples.full_store. now rewrite Hp. }
    subst c. now split.
Qed.

Lemma store_puts_stay_within_capacity_witness :
  exists c0 c,
    newStore 2 1000 = Ok c0
    /\ Len c0 = 0%nat
    /\ puts c0 Examples.store_ops = Ok c
    /\ consistent c
    /\ (Len c <= pq_cap c)%nat
    /\ pq_cap c = Z.to_nat 2.
Proof.
  apply (store_puts_stay_within_capacity 2 1000 Examples.store_ops). lia.
Defined.

Lemma store_put_then_get_witness :
  exists c',
    put Examples.full_store "c" (Some (Examples.response 10)) 10 1002 = Ok c'
    /\ get c' "c" = Ok (Some (Examples.response 10)).
Proof.
  apply (store_put_then_get Examples.full_store "c"
           (Some (Examples.response 10)) 10 1002).
  - apply full_store_facts.
  - vm_compute. lia.
  - vm_compute. lia.
Defined.

Lemma store_put_existing_key_witness :
  exists c',
    put Examples.full_store "a" (Some (Examples.response 10)) 10 1002 = Ok c'
    /\ Len c' = Len Examples.full_store
    /\ (exists t0, entry c' "a" = Some (Some (Examples.response 10), 10, t0))
    /\ forall k', k' <> "a"%string -> get c' k' = get Examples.full_store k'.
Proof.
  apply (store_put_existing_key Examples.full_store "a"
           (Some (Examples.response 10)) 10 1002 1%nat).
  - apply full_store_facts.
  - vm_compute. lia.
  - vm_compute. lia.
  - reflexivity.
Defined.

Lemma store_put_new_key_with_room_witness :
  exists c',
    put Examples.empty_store "a" (Some (Examples.response 300)) 300 1000 = Ok c'
    /\ Len c' = S (Len Examples.empty_store)
    /\ entry c' "a" = Some (Some (Examples.response 300), 300, 0)
    /\ forall k', k' <> "a"%string -> get c' k' = get Examples.empty_store k'.
Proof.
  apply (store_put_new_key_with_room Examples.empty_store "a"
           (Some (Examples.response 300)) 300 1000).
  - apply empty_store_facts.
  - vm_compute. lia.
  - reflexivity.
Defined.

Lemma store_put_new_key_when_full_witness :
  exists c' root,
    put Examples.full_store "c" (Some (Examples.response 10)) 10 1002 = Ok c'
    /\ nth_error (pq Examples.full_store) 0 = Some root
    /\ Len c' = Len Examples.full_store
    /\ get c' "c" = Ok (Some (Examples.response 10))
    /\ get c' (key root) = Ok None
    /\ forall k', k' <> "c"%string -> k' <> key root ->
         get c' k' = get Examples.full_store k'.
Proof.
  apply (store_put_new_key_when_full Examples.full_store "c"
           (Some (Examples.response 10)) 10 1002).
  - apply full_store_facts.
  - vm_compute. lia.
  - reflexivity.
  - reflexivity.
Defined.

(** The sample store is full with the keys [a] (300 seconds) and [b] (60
    seconds); a third key pushes out [b]. *)
Example full_store_evicts_b :
  match put Examples.full_store "c" (Some (Examples.response 10)) 10 1002 with
  | Ok c' => (get c' "a", get c' "b", get c' "c")
  | Panic _ => (Ok None, Ok None, Ok None)
  end
  = (Ok (Some (Examples.response 300)), Ok None, Ok (Some (Examples.response 10))).
Proof. vm_compute. reflexivity. Qed.

Lemma store_puts_keep_heap_order_witness :
  exists c0 c,
    newStore 2 1000 = Ok c0
    /\ puts c0 Examples.store_ops = Ok c
    /\ heap_ordered c
    /\ (forall p, (p < Len c)%nat -> seconds_at c 0 <= seconds_at c p)
    /\ (forall p x, nth_error (pq c) p = Some x ->
          t x = 0 /\ secondsLeft x (ct c) = ttl x - ct c).
Proof.
  apply (store_puts_keep_heap_order 2 1000 Examples.store_ops).
  - lia.
  - unfold in_bounds. lia.
  - unfold ops_in_bounds, in_bounds, Examples.store_ops.
    repeat constructor; cbn [fst snd]; lia.
Defined.


End Store2Facts.


(** ** More on the server *)

Section ClockMore.

Import Proxy ProxyMore.

(** X21.  The clock reads the time of the last tick, and until the first tick
    the value it had before; the start time is what [Run] last stored.
    Neither field is touched by the events of the other. *)
Theorem clock_reads_last_tick :
  forall (s : Clock) (es : list clock_event),
    now (clock_run s es)
    = match last_tick es with
      | Some tm => tm
      | None => currentTime s
      end
    /\ startTime (clock_run s es)
       = match last_start es with
         | Some tm => tm
         | None => startTime s
         end.
Proof.
  unfold now, clock_run. intros s es. revert s.
  induction es as [|e rest IH]; intros s; [split; reflexivity|].
  cbn [fold_left last_tick last_start].
  destruct (IH (clock_step s e)) as [-> ->].
  destruct (last_tick rest), (last_start rest), e; split; reflexivity.
Qed.

End ClockMore.

Section ConnectorMore.

Import Proxy ProxyMore.

Lemma Split_length sep s :
  List.length (Split sep s) = S (count sep s).
Proof.
  induction s as [|ch rest IH]; [reflexivity|]. cbn [Split count].
  destruct (Ascii.eqb ch sep).
  - cbn [List.length]. now rewrite IH.
  - destruct (Split sep rest) as [|p ps]; [discriminate|]. exact IH.
Qed.

Variable Conn : Type.
Variable SplitHostPort : string -> (string * string) + string.
Variable dial : string -> tlsConfig -> Conn + string.

(** X22.  An address with no [@] or with more than one is dialled as it stands,
    with the minimum version TLS 1.2 and no server name, and
    [net.SplitHostPort] is not consulted. *)
Theorem connector_without_single_at :
  forall (addr : string),
    count at_sign addr <> 1%nat ->
    connector Conn SplitHostPort dial addr
    = match dial addr (mkTlsConfig VersionTLS12 EmptyString) with
      | inr err => Failure err
      | inl conn => Connected conn
      end.
Proof.
  intros addr Hc. unfold connector.
  pose proof (Split_length at_sign addr) as HL.
  destruct (Split at_sign addr) as [|c0 [|c1 [|c2 l]]];
    cbn [List.length] in HL; try reflexivity.
  congruence.
Qed.

End ConnectorMore.

Lemma connector_without_single_at_witness :
  Proxy.connector (string * Proxy.tlsConfig) NetModel.SplitHostPort
    NetModel.dial_ok "a.example:853@192.0.2.1@192.0.2.2"
  = match NetModel.dial_ok "a.example:853@192.0.2.1@192.0.2.2"
            (Proxy.mkTlsConfig Proxy.VersionTLS12 EmptyString) with
    | inr err => Proxy.Failure err
    | inl conn => Proxy.Connected conn
    end.
Proof.
  apply (connector_without_single_at (string * Proxy.tlsConfig)
           NetModel.SplitHostPort NetModel.dial_ok
           "a.example:853@192.0.2.1@192.0.2.2").
  vm_compute. discriminate.
Defined.

Section ExchangeMore.

Import Proxy.

(** X16.  One exchange: a response comes back exactly when there is no error,
    and it is the message read; the connection returns to the pool exactly
    when there is no error, is closed on every error that follows its
    acquisition, and does not exist when the acquisition itself failed. *)
Theorem exchange_outcomes :
  forall (io : exchange_io),
    let resp := fst (fst (exchangeMessages io)) in
    let err := snd (fst (exchangeMessages io)) in
    let fate := snd (exchangeMessages io) in
    (resp = None <-> err <> None)
    /\ (fate = Returned <-> err = None)
    /\ (fate = NoConn <-> pool_get_fails io = true)
    /\ (fate = Closed <-> pool_get_fails io = false /\ err <> None)
    /\ (forall r, resp = Some r ->
          read_result io = (Some r, false)
          /\ pool_get_fails io = false /\ write_fails io = false).
Proof.
  intros [pf wf [[r|] re]]; destruct pf, wf, re; cbn;
    repeat split; intros; try congruence; try discriminate;
    try (destruct H; congruence).
Qed.

Lemma arrivals_single sched : forall l : list (option Msg),
  arrivals [l] sched = l.
Proof.
  induction sched as [|i rest IH]; intros l; cbn [arrivals].
  - cbn. apply app_nil_r.
  - destruct i as [|i]; cbn [nth_error].
    + destruct l as [|x xs]; [apply IH|]. cbn [set_nth]. now rewrite IH.
    + destruct i; apply IH.
Qed.

(** X17.  With a single pool the fan-out returns what the exchange with that
    pool returns, in whatever order its goroutine is scheduled. *)
Theorem fanout_single_pool :
  forall (io : exchange_io) (sched : list nat),
    forwardMessageAndGetResponse [io] sched = fst (fst (exchangeMessages io)).
Proof.
  intros io sched. unfold forwardMessageAndGetResponse. cbn [map List.length].
  rewrite arrivals_single.
  destruct io as [pf wf [[r|] re]]; destruct pf, wf, re; reflexivity.
Qed.

Lemma receive_In n : forall resps r,
  receive n resps = Some r -> In (Some r) resps.
Proof.
  induction n as [|n IH]; intros resps r H; cbn [receive] in H; [discriminate|].
  destruct resps as [|[x|] rest]; [discriminate| |].
  - injection H as <-. now left.
  - right. now apply IH.
Qed.

(** X18.  The fan-out makes up no response: what it returns, when not nil, is
    the response of the exchange with one of the pools. *)
Theorem fanout_returns_a_pool_response :
  forall (ios : list exchange_io) (sched : list nat) (r : Msg),
    forwardMessageAndGetResponse ios sched = Some r ->
    exists io, In io ios /\ fst (fst (exchangeMessages io)) = Some r.
Proof.
  intros ios sched r H. unfold forwardMessageAndGetResponse in H.
  apply receive_In in H.
  set (Q := fun x : option Msg =>
              x = None
              \/ exists io, In io ios /\ fst (fst (exchangeMessages io)) = x).
  assert (HQ : Forall Q (arrivals
                 (map (fun re => sends (fst re) (snd re))
                    (map (fun io => fst (exchangeMessages io)) ios)) sched)).
  { apply arrivals_Forall. rewrite map_map. apply Forall_map.
    apply Forall_forall. intros io Hio. cbn beta. unfold sends.
    apply Forall_app. split.
    - destruct (snd (fst (exchangeMessages io))),
               (fst (fst (exchangeMessages io)));
        repeat constructor; now left.
    - constructor; [|constructor]. right. now exists io. }
  rewrite Forall_forall in HQ. destruct (HQ _ H) as [|Hio]; [discriminate|].
  exact Hio.
Qed.

End ExchangeMore.

Lemma fanout_returns_a_pool_response_witness :
  exists io,
    In io [Examples.failing_pool; Examples.answering_pool (Examples.response 300)]
    /\ fst (fst (Proxy.exchangeMessages io)) = Some (Examples.response 300).
Proof.
  apply (fanout_returns_a_pool_response
           [Examples.failing_pool; Examples.answering_pool (Examples.response 300)]
           [1; 0; 0]%nat (Examples.response 300)).
  reflexivity.
Defined.

Section ResolverMore.

Import Proxy ProxyMore.

Variable C : Type.
Variable cache_get : C -> Msg -> result (C * option Msg * bool).
Variable cache_put : C -> Msg -> Msg -> result C.
Variable upstream : nat -> list exchange_io * list nat.

(** What forwarding leaves of the server, whatever it returns. *)
Lemma forward_and_cache_shape s q s' m :
  forwardMessageAndCacheResponse C cache_put upstream s q = Ok (s', m) ->
  rq s' = rq s
  /\ (fanouts s < fanouts s' <= fanouts s + 3)%nat
  /\ (m = None ->
      cache s' = cache s /\ fanouts s' = (fanouts s + 3)%nat
      /\ forall i, (i < 3)%nat -> attempt C upstream s i = None).
Proof.
  unfold forwardMessageAndCacheResponse, attempt.
  rewrite forward_once_result.
  assert (A0 : fanout_result upstream (fanouts s + 0) = fanout_result upstream (fanouts s))
    by (now rewrite Nat.add_0_r).
  assert (A1 : fanout_result upstream (fanouts s + 1) = fanout_result upstream (S (fanouts s)))
    by (now rewrite Nat.add_1_r).
  assert (A2 : fanout_result upstream (fanouts s + 2)
               = fanout_result upstream (S (S (fanouts s))))
    by (f_equal; lia).
  destruct (fanout_result upstream (fanouts s)) as [r0|] eqn:E0.
  { cbn [retry cache rq fanouts].
    destruct (cache_put (cache s) q r0); cbn [bind]; [|discriminate].
    intros H. injection H as <- <-. cbn [rq fanouts]. split; [reflexivity|].
    split; [lia|]. discriminate. }
  cbn [retry]. rewrite forward_once_result. cbn [cache rq fanouts].
  destruct (fanout_result upstream (S (fanouts s))) as [r1|] eqn:E1.
  { cbn [retry cache rq fanouts].
    destruct (cache_put (cache s) q r1); cbn [bind]; [|discriminate].
    intros H. injection H as <- <-. cbn [rq fanouts]. split; [reflexivity|].
    split; [lia|]. discriminate. }
  cbn [retry]. rewrite forward_once_result. cbn [cache rq fanouts].
  destruct (fanout_result upstream (S (S (fanouts s)))) as [r2|] eqn:E2.
  { cbn [retry cache rq fanouts].
    destruct (cache_put (cache s) q r2); cbn [bind]; [|discriminate].
    intros H. injection H as <- <-. cbn [rq fanouts]. split; [reflexivity|].
    split; [lia|]. discriminate. }
  cbn [retry cache rq fanouts].
  intros H. injection H as <- <-. cbn [cache rq fanouts].
  split; [reflexivity|]. split; [lia|]. intros _.
  split; [reflexivity|]. split; [lia|].
  intros i Hi. assert (i = 0 \/ i = 1 \/ i = 2)%nat as [->|[->| ->]] by lia;
    congruence.
Qed.

(** X13.  Resolving one query makes at most three fan-outs, and none when the
    cache returns a message, fresh or stale; it adds at most the query
    itself to the refresh queue, which never grows beyond its capacity. *)
Theorem getAnswer_bounds :
  forall (s s' : Server C) (q : Msg) (m : option Msg),
    getAnswer C cache_get cache_put upstream s q = Ok (s', m) ->
    (fanouts s <= fanouts s' <= fanouts s + 3)%nat
    /\ (rq s' = rq s \/ rq s' = rq s ++ [q])
    /\ ((List.length (rq s) <= refreshQueueSize)%nat ->
        (List.length (rq s') <= refreshQueueSize)%nat)
    /\ (forall c' r ok, cache_get (cache s) q = Ok (c', Some r, ok) ->
          m = Some r /\ fanouts s' = fanouts s /\ cache s' = c').
Proof.
  intros s s' q m. unfold getAnswer.
  destruct (cache_get (cache s) q) as [[[c' m0] ok]|why]; cbn [bind];
    [|discriminate].
  destruct ok.
  - intros H. injection H as <- <-. cbn [fanouts rq cache].
    split; [lia|]. split; [now left|]. split; [trivial|].
    intros c2 r ok H. injection H as <- <- _. now split.
  - destruct m0 as [r0|].
    + intros H. injection H as <- <-. unfold refresh. cbn [fanouts rq cache].
      destruct (Nat.ltb_spec (List.length (rq s)) refreshQueueSize) as [Hroom|Hfull];
        cbn [fanouts rq cache].
      * split; [lia|]. split; [now right|]. split.
        { intros _. rewrite length_app. cbn [List.length]. lia. }
        intros c2 r ok H. injection H as <- <- _. now split.
      * split; [lia|]. split; [now left|]. split; [trivial|].
        intros c2 r ok H. injection H as <- <- _. now split.
    + intros H. apply forward_and_cache_shape in H. cbn [rq fanouts cache] in H.
      destruct H as (Hq & Hf & _). split; [lia|]. split; [now left|].
      split; [now rewrite Hq|]. intros c2 r ok H. discriminate.
Qed.

(** X14.  [ServeDNS] answers with a server failure only when the cache returned
    no message and either reported a hit all the same or three fan-outs in
    a row returned nil; in the second case the cache is as the lookup left
    it. *)
Theorem ServeDNS_failure_only_after_three_nil_fanouts :
  forall (s s' : Server C) (q : Msg),
    ServeDNS C cache_get cache_put upstream s q = Ok (s', HandleFailed) ->
    exists c' ok,
      cache_get (cache s) q = Ok (c', None, ok)
      /\ cache s' = c'
      /\ rq s' = rq s
      /\ (ok = false ->
          fanouts s' = (fanouts s + 3)%nat
          /\ forall i, (i < 3)%nat -> attempt C upstream s i = None).
Proof.
  intros s s' q. unfold ServeDNS.
  destruct (Questions q); [discriminate|].
  destruct (getAnswer C cache_get cache_put upstream s q) as [[s1 m]|why] eqn:Hg;
    cbn [bind fst snd]; [|discriminate].
  destruct m as [r|]; [discriminate|]. intros H. injection H as <-.
  unfold getAnswer in Hg.
  destruct (cache_get (cache s) q) as [[[c' m0] ok]|why]; cbn [bind] in Hg;
    [|discriminate].
  destruct ok.
  - injection Hg as <- <-. exists c', true. cbn [cache rq].
    split; [reflexivity|]. split; [reflexivity|]. split; [reflexivity|].
    discriminate.
  - destruct m0 as [r0|]; [discriminate|].
    apply forward_and_cache_shape in Hg. cbn [rq fanouts cache] in Hg.
    destruct Hg as (Hq & _ & Hn). destruct (Hn eq_refl) as (Hc & Hf & Ha).
    exists c', false. split; [reflexivity|]. split; [assumption|].
    split; [assumption|]. intros _. split; [assumption|].
    intros i Hi. specialize (Ha i Hi). exact Ha.
Qed.

(** X15.  A stale hit puts the query on an empty refresh queue and answers from
    the cache; the turn of the refresher that follows takes the query off
    the queue, and when the first fan-out answers, puts that answer into
    the cache. *)
Theorem stale_hit_then_refresh :
  forall (s : Server C) (q r0 r : Msg) (c' c'' : C),
    rq s = [] ->
    cache_get (cache s) q = Ok (c', Some r0, false) ->
    attempt C upstream s 0 = Some r ->
    cache_put c' q r = Ok c'' ->
    exists s1,
      getAnswer C cache_get cache_put upstream s q = Ok (s1, Some r0)
      /\ rq s1 = [q]
      /\ refresher_turn C cache_put upstream s1
         = Ok (mkServer c'' [] (fanouts s + 1)).
Proof.
  intros s q r0 r c' c'' Hq Hget Hatt Hput.
  unfold getAnswer. rewrite Hget. cbn [bind]. rewrite Hq.
  assert (Hr : refresh C (mkServer c' [] (fanouts s)) q
               = mkServer c' [q] (fanouts s)) by reflexivity.
  rewrite Hr. exists (mkServer c' [q] (fanouts s)).
  split; [reflexivity|]. split; [reflexivity|].
  unfold refresher_turn. cbn [rq cache fanouts].
  unfold forwardMessageAndCacheResponse. rewrite forward_once_result.
  cbn [cache rq fanouts]. unfold attempt in Hatt.
  rewrite Nat.add_0_r in Hatt. rewrite Hatt. cbn [retry cache rq fanouts].
  rewrite Hput. cbn [bind fst]. now rewrite Nat.add_1_r.
Qed.

End ResolverMore.

Section ResolverAtSamples.

Import Proxy ProxyMore Examples.

Lemma getAnswer_bounds_witness :
  let s := mkServer cache0 [] 0 in
  let s' := mkServer cache0 [] 3 in
  let q := query 7 in
  (fanouts s <= fanouts s' <= fanouts s + 3)%nat
  /\ (rq s' = rq s \/ rq s' = rq s ++ [q])
  /\ ((List.length (rq s) <= refreshQueueSize)%nat ->
      (List.length (rq s') <= refreshQueueSize)%nat)
  /\ (forall c' r ok, sample_get (cache s) q = Ok (c', Some r, ok) ->
        None = Some r /\ fanouts s' = fanouts s /\ cache s' = c').
Proof.
  apply (getAnswer_bounds _ sample_get sample_put nil_upstream
           (mkServer cache0 [] 0) (mkServer cache0 [] 3) (query 7) None).
  vm_compute. reflexivity.
Defined.

Lemma ServeDNS_failure_witness :
  exists c' ok,
    sample_get (cache (mkServer cache0 [] 0)) (query 7) = Ok (c', None, ok)
    /\ cache (mkServer cache0 [] 3) = c'
    /\ rq (mkServer cache0 [] 3) = rq (mkServer cache0 [] 0)
    /\ (ok = false ->
        fanouts (mkServer cache0 [] 3) = (fanouts (mkServer cache0 [] 0) + 3)%nat
        /\ forall i, (i < 3)%nat ->
             attempt _ nil_upstream (mkServer cache0 [] 0) i = None).
Proof.
  apply (ServeDNS_failure_only_after_three_nil_fanouts _ sample_get sample_put
           nil_upstream (mkServer cache0 [] 0) (mkServer cache0 [] 3) (query 7)).
  vm_compute. reflexivity.
Defined.

Lemma stale_hit_then_refresh_witness :
  exists s1,
    getAnswer _ sample_get sample_put answering_upstream
      (mkServer (cache_with 1 0) [] 0) (query 8)
    = Ok (s1, Some stale_clone)
    /\ rq s1 = [query 8]
    /\ refresher_turn _ sample_put answering_upstream s1
       = Ok (mkServer cache_after_refresh [] (0 + 1)).
Proof.
  apply (stale_hit_then_refresh _ sample_get sample_put answering_upstream
           (mkServer (cache_with 1 0) [] 0) (query 8) stale_clone (response 120)
           cache_after_lookup cache_after_refresh).
  - reflexivity.
  - vm_compute. reflexivity.
  - reflexivity.
  - vm_compute. reflexivity.
Defined.

(** The stale clone carries the identifier of the query and the TTL 60. *)
Example stale_clone_fields :
  Id stale_clone = 8 /\ map Ttl (Answer stale_clone) = [60].
Proof. split; reflexivity. Qed.

Lemma fanout_all_nil_witness :
  forwardMessageAndGetResponse [failing_pool; failing_pool] [1; 0; 1; 0]%nat = None.
Proof.
  apply (fanout_all_nil [failing_pool; failing_pool] [1; 0; 1; 0]%nat).
  repeat constructor.
Defined.

Lemma fanout_all_answer_witness :
  exists r rest,
    arrivals
      (map (fun io => sends (fst (fst (exchangeMessages io)))
                        (snd (fst (exchangeMessages io))))
         [answering_pool (response 300); answering_pool (response 60)])
      [1]%nat
    = Some r :: rest
    /\ forwardMessageAndGetResponse
         [answering_pool (response 300); answering_pool (response 60)] [1]%nat
       = Some r.
Proof.
  apply (fanout_all_answer
           [answering_pool (response 300); answering_pool (response 60)] [1]%nat).
  - discriminate.
  - repeat constructor; eexists; reflexivity.
Defined.

End ResolverAtSamples.

(** ** More on the response cache *)

Section CacheMore.

Import DnsCache DnsMore.

Variable question_String : Question -> string.
Variable A : ArcImpl.

Lemma fresh_answers_data e since rs : forall i,
  map record_data (fresh_answers e since i rs) = map record_data rs.
Proof.
  induction rs as [|a rest IH]; intros i; [reflexivity|].
  cbn [fresh_answers map]. now rewrite IH.
Qed.

Lemma stale_answers_data rs :
  map record_data (stale_answers rs) = map record_data rs.
Proof.
  unfold stale_answers. rewrite map_map. reflexivity.
Qed.

(** What a [Get] returns after a [Put] under the same fingerprint, before
    and after the expiration. *)
Lemma Put_then_Get ca q v t0 now since :
  ArcPutGet A -> Questions q <> [] -> Answer v <> [] ->
  exists c1 c2 : Cache A,
    Put question_String ca q v t0 = Ok c1
    /\ Get question_String c1 q now since
       = if Before (t0 + Z.min (min_ttl (Answer v) * Second) maxTTL) now
         then Ok (c2,
                  Some (set_Answer (set_Id (canonical v) (Id q))
                          (stale_answers (Answer v))),
                  false)
         else Ok (c2,
                  Some (set_Answer (set_Id (canonical v) (Id q))
                          (fresh_answers
                             (t0 + Z.min (min_ttl (Answer v) * Second) maxTTL)
                             since 0 (Answer v))),
                  true).
Proof.
  intros Hlaw Hq Hv.
  destruct (key_defined question_String q Hq) as [k Hk].
  rewrite (Put_stores question_String A ca q v t0 k Hk Hv).
  rewrite min_expiration_capped by assumption.
  set (cv := mkCacheValue (canonical v) _).
  specialize (Hlaw (c ca) k cv).
  destruct (arc_Get A (arc_Put A (c ca) k cv) k) as [a' r] eqn:Hg.
  simpl in Hlaw. subst r.
  eexists. exists (mkCache a'). split; [reflexivity|].
  rewrite (Get_hit question_String A
             (mkCache (arc_Put A (c ca) k cv)) q k a' cv now since Hk Hg).
  reflexivity.
Qed.

(** X10.  A response put into the cache and looked up before it expires comes
    back as it was put, but for four things: it carries the identifier of
    the query, the truncated flag is off, compression is on, and the TTLs
    are rewritten.  The questions and the names, types and data of the
    answers are those of the response put. *)
Theorem put_then_get_returns_the_response :
  forall (ca : Cache A) (q v : Msg) (t0 now : Time) (since : nat -> Time),
    ArcPutGet A ->
    Questions q <> [] ->
    Answer v <> [] ->
    now <= t0 + Z.min (min_ttl (Answer v) * Second) maxTTL ->
    exists c1 c2 r,
      Put question_String ca q v t0 = Ok c1
      /\ Get question_String c1 q now since = Ok (c2, Some r, true)
      /\ Id r = Id q
      /\ Truncated r = false
      /\ Compress r = true
      /\ Questions r = Questions v
      /\ map record_data (Answer r) = map record_data (Answer v).
Proof.
  intros ca q v t0 now since Hlaw Hq Hv Hnow.
  destruct (Put_then_Get ca q v t0 now since Hlaw Hq Hv) as (c1 & c2 & Hp & Hg).
  replace (Before _ now) with false in Hg
    by (symmetry; unfold Before; now apply Z.ltb_ge).
  exists c1, c2. eexists. split; [exact Hp|]. split; [exact Hg|].
  cbn [Id Truncated Compress Questions Answer set_Answer set_Id canonical
       set_Compress set_Truncated Copy].
  repeat split. apply fresh_answers_data.
Qed.

(** X11.  A response put into the cache and looked up after it has expired is
    still returned, with the fresh flag off: the stale clone carries the
    identifier of the query and the TTL 60 on every answer, and the
    questions and the names, types and data of the answers are those of
    the response put. *)
Theorem put_then_late_get_is_stale :
  forall (ca : Cache A) (q v : Msg) (t0 now : Time) (since : nat -> Time),
    ArcPutGet A ->
    Questions q <> [] ->
    Answer v <> [] ->
    t0 + Z.min (min_ttl (Answer v) * Second) maxTTL < now ->
    exists c1 c2 r,
      Put question_String ca q v t0 = Ok c1
      /\ Get question_String c1 q now since = Ok (c2, Some r, false)
      /\ Id r = Id q
      /\ Forall (fun a => Ttl a = 60) (Answer r)
      /\ Questions r = Questions v
      /\ map record_data (Answer r) = map record_data (Answer v).
Proof.
  intros ca q v t0 now since Hlaw Hq Hv Hnow.
  destruct (Put_then_Get ca q v t0 now since Hlaw Hq Hv) as (c1 & c2 & Hp & Hg).
  replace (Before _ now) with true in Hg
    by (symmetry; unfold Before; now apply Z.ltb_lt).
  exists c1, c2. eexists. split; [exact Hp|]. split; [exact Hg|].
  cbn [Id Questions Answer set_Answer set_Id canonical
       set_Compress set_Truncated Copy].
  split; [reflexivity|]. split; [apply stale_answers_sixty|].
  split; [reflexivity|]. apply stale_answers_data.
Qed.

End CacheMore.

Section CacheMoreAtSamples.

Import DnsCache DnsMore Examples.

Lemma put_then_get_returns_the_response_witness :
  exists c1 c2 r,
    Put name_String cache0 (query 7) (response 300) 0 = Ok c1
    /\ Get name_String c1 (query 8) (2 * Second) (fun _ => 2 * Second)
       = Ok (c2, Some r, true)
    /\ Id r = Id (query 8)
    /\ Truncated r = false
    /\ Compress r = true
    /\ Questions r = Questions (response 300)
    /\ map record_data (Answer r) = map record_data (Answer (response 300)).
Proof.
  apply (put_then_get_returns_the_response name_String ArcModel.impl cache0
           (query 8) (response 300) 0 (2 * Second) (fun _ => 2 * Second)).
  - exact ArcModel_put_get.
  - discriminate.
  - discriminate.
  - vm_compute. discriminate.
Defined.

Lemma put_then_late_get_is_stale_witness :
  exists c1 c2 r,
    Put name_String cache0 (query 7) (response 1) 0 = Ok c1
    /\ Get name_String c1 (query 8) (2 * Second) (fun _ => 2 * Second)
       = Ok (c2, Some r, false)
    /\ Id r = Id (query 8)
    /\ Forall (fun a => Ttl a = 60) (Answer r)
    /\ Questions r = Questions (response 1)
    /\ map record_data (Answer r) = map record_data (Answer (response 1)).
Proof.
  apply (put_then_late_get_is_stale name_String ArcModel.impl cache0
           (query 8) (response 1) 0 (2 * Second) (fun _ => 2 * Second)).
  - exact ArcModel_put_get.
  - discriminate.
  - discriminate.
  - vm_compute. reflexivity.
Defined.

End CacheMoreAtSamples.

(** ** More on the replacement cache and on the expiring store *)

Section NewCacheMore.

Import Specialized.

Variable V : Type.
Variable S : StoreImpl V.

(** X12.  [NewCache] on every [int]: no cache and no error up to size 0, the
    error for size 1, and from size 2 on a cache of that capacity with the
    clock at 0, no timer, and the size split between the two stores, the
    odd item going to the most-frequently-accessed one.  The error for a
    size above the limit is returned for no [int]. *)
Theorem NewCache_cases :
  forall (size : Z),
    - 2 ^ 63 <= size < 2 ^ 63 ->
    match NewCache V S size with
    | Disabled _ _ => size <= 0
    | Failed _ _ err => size = 1 /\ err = "cache size < 2 not supported"%string
    | Built _ _ c =>
        2 <= size
        /\ capacity V S c = size
        /\ ct V S c = 0
        /\ timeNow V S c = false
        /\ lru V S c = newStore V S (Z.quot size 2) byTime
        /\ mfa V S c = newStore V S (Z.quot size 2 + Z.rem size 2) byAccesses
    end.
Proof.
  intros size Hsize. unfold NewCache.
  destruct (Z.leb_spec size 0); [assumption|].
  destruct (Z.ltb_spec size 2); [split; [lia|reflexivity]|].
  assert (Hu : uint_of_int size = size).
  { unfold uint_of_int, uint_bits. apply Z.mod_small. lia. }
  assert (Hm : maxsize = 2 ^ 63 - 1) by reflexivity.
  rewrite Hu, Hm.
  destruct (Z.gtb_spec size (2 ^ 63 - 1)); [lia|].
  cbn [capacity ct timeNow lru mfa]. repeat split. assumption.
Qed.

End NewCacheMore.

Lemma NewCache_cases_witness :
  match Specialized.NewCache nat (StoreModel.impl nat) 3 with
  | Specialized.Disabled _ _ => 3 <= 0
  | Specialized.Failed _ _ err =>
      3 = 1 /\ err = "cache size < 2 not supported"%string
  | Specialized.Built _ _ c =>
      2 <= 3
      /\ Specialized.capacity nat (StoreModel.impl nat) c = 3
      /\ Specialized.ct nat (StoreModel.impl nat) c = 0
      /\ Specialized.timeNow nat (StoreModel.impl nat) c = false
      /\ Specialized.lru nat (StoreModel.impl nat) c
         = Specialized.newStore nat (StoreModel.impl nat) (Z.quot 3 2)
             Specialized.byTime
      /\ Specialized.mfa nat (StoreModel.impl nat) c
         = Specialized.newStore nat (StoreModel.impl nat)
             (Z.quot 3 2 + Z.rem 3 2) Specialized.byAccesses
  end.
Proof.
  apply (NewCache_cases nat (StoreModel.impl nat) 3). lia.
Defined.

Section Store2More.

Import Store2.

Lemma puts_leave_unknown_key ops : forall c k,
  consistent c -> (1 <= pq_cap c)%nat -> (Len c <= pq_cap c)%nat ->
  entry c k = None ->
  Forall (fun op => fst (fst (fst op)) <> k) ops ->
  exists c', puts c ops = Ok c' /\ consistent c' /\ entry c' k = None.
Proof.
  induction ops as [|[[[k0 v] ttl0] now] rest IH]; intros c k Hc Hcap Hlen He Hops.
  - exists c. now split.
  - inversion Hops as [|op ops' Hk0 Hrest]; subst. cbn [fst] in Hk0.
    destruct (put_spec c k0 v ttl0 now Hc Hcap Hlen)
      as (c1 & Hp & H1 & C1 & _ & Hcase).
    destruct (put_keeps_invariant c k0 v ttl0 now Hc Hcap Hlen)
      as (c1' & Hp' & _ & _ & L1 & _).
    assert (c1' = c1) by congruence. subst c1'.
    assert (E1 : entry c1 k = None).
    { destruct (entry c k0) as [[[v0 l0] t0]|].
      - destruct Hcase as [_ E]. rewrite E.
        destruct (String.eqb_spec k k0); [congruence|assumption].
      - destruct (Nat.eqb (Len c) (pq_cap c)).
        + destruct Hcase as (root & _ & _ & E). rewrite E.
          destruct (String.eqb_spec k k0); [congruence|].
          now destruct (String.eqb k (key root)).
        + destruct Hcase as [_ E]. rewrite E.
          destruct (String.eqb_spec k k0); [congruence|assumption]. }
    cbn [puts]. rewrite Hp. cbn [bind].
    apply IH; try assumption. lia.
Qed.

(** X8.  [get] under a key that was never put returns nil, and does not panic,
    after any run of [put]s on a store of capacity at least one. *)
Theorem store_get_unknown_key :
  forall (size now : Z) (ops : list (string * option Msg * Z * Z)) (k : string),
    1 <= size ->
    Forall (fun op => fst (fst (fst op)) <> k) ops ->
    exists c0 c,
      newStore size now = Ok c0
      /\ puts c0 ops = Ok c
      /\ get c k = Ok None.
Proof.
  intros size now ops k Hsize Hops.
  destruct (newStore_spec size now) as [Hn Hc0]; [lia|].
  destruct (puts_leave_unknown_key ops _ k Hc0) as (c & Hp & Hc & He);
    try assumption.
  { cbn [pq_cap]. lia. }
  { unfold Len. cbn. lia. }
  { reflexivity. }
  eexists. exists c. split; [exact Hn|]. split; [assumption|].
  now rewrite (get_entry c k Hc), He.
Qed.

Lemma store_get_unknown_key_witness :
  exists c0 c,
    newStore 2 1000 = Ok c0
    /\ puts c0 Examples.store_ops = Ok c
    /\ get c "z" = Ok None.
Proof.
  apply (store_get_unknown_key 2 1000 Examples.store_ops "z").
  - lia.
  - repeat constructor; discriminate.
Defined.

End Store2More.
